(** * NexusFlow Gatekeeper: the Healer Protocol

    A shallow embedding of the reliable-messaging core of the client store
    ([store.ts]), of the relay's message store ([server/messageStore.ts]),
    of the relay's [message:send] admission path ([server/index.ts]) and of
    the vector-clock helpers ([vectorClock.ts]).

    Modelling conventions:
    - timestamps and counters are [Z] (JS numbers that stay integral here);
    - probabilities and latencies of the chaos configuration are [Q];
    - [Math.random()] is a random source [rnd : nat -> Q] read at an index
      that is threaded through the code and bumped at every call;
    - a JS [Map] is an association list in insertion order ([Map.set] on a
      present key updates in place, on a new key appends), a JS [Set] a
      duplicate-free list in insertion order;
    - the side effects on the transport are returned as a list of
      [Effect]s, in the order the code performs them. *)

From Stdlib Require Import String Ascii List ZArith QArith Bool Lia.
Import ListNotations.
Open Scope Z_scope.

(** ** Shared containers: JS [Map] and [Set] *)
Module JsColl.

Fixpoint map_get {V} (m : list (string * V)) (k : string) : option V :=
  match m with
  | [] => None
  | (k', v) :: m' => if String.eqb k k' then Some v else map_get m' k
  end.

Fixpoint map_has {V} (m : list (string * V)) (k : string) : bool :=
  match m with
  | [] => false
  | (k', _) :: m' => String.eqb k k' || map_has m' k
  end.

Fixpoint map_replace {V} (m : list (string * V)) (k : string) (v : V)
  : list (string * V) :=
  match m with
  | [] => []
  | (k', v') :: m' =>
      if String.eqb k k' then (k', v) :: m' else (k', v') :: map_replace m' k v
  end.

(** [Map.prototype.set]: update in place, or append a new key. *)
Definition map_set {V} (m : list (string * V)) (k : string) (v : V)
  : list (string * V) :=
  if map_has m k then map_replace m k v else m ++ [(k, v)].

(** [Map.prototype.delete]. *)
Fixpoint map_delete {V} (m : list (string * V)) (k : string) : list (string * V) :=
  match m with
  | [] => []
  | (k', v') :: m' => if String.eqb k k' then m' else (k', v') :: map_delete m' k
  end.

Definition set_has (s : list string) (x : string) : bool :=
  existsb (String.eqb x) s.

(** [new Set([...s, x])]: append unless present. *)
Definition set_add (s : list string) (x : string) : list string :=
  if set_has s x then s else s ++ [x].

End JsColl.

Import JsColl.

(** ** The client store ([store.ts]) *)
Module NexusStore.

Inductive NodeState := normal | warning | emergency.

Record RoboticNode := mkNode {
  node_id : string;
  label : string;
  pos_x : Z;
  pos_y : Z;
  state : NodeState
}.

(** The [type] of a [ReliableMessage] together with the payload the code
    reads for that type ([payload as { nodeId; state }], ...). *)
Inductive MsgBody :=
| NODE_STATE_CHANGE (nodeId : string) (st : NodeState)
| STATE_SYNC (nodes : list RoboticNode)
| ACKNOWLEDGEMENT (messageId : string)
| UnknownType (ty : string).

Record ReliableMessage := mkMsg {
  msg_id : string;
  body : MsgBody;
  timestamp : Z;
  senderId : string;
  attempts : Z;
  maxAttempts : Z
}.

Record PendingMessage := mkPending {
  message : ReliableMessage;
  acknowledged : bool;
  lastAttempt : Z
}.

Record ChaosConfig := mkChaos {
  packetLossRate : Q;
  minLatency : Q;
  maxLatency : Q
}.

Record Metrics := mkMetrics {
  messagesSent : Z;
  messagesReceived : Z;
  acksReceived : Z;
  retries : Z;
  lastLatency : Z
}.

Record Store := mkStore {
  nodes : list RoboticNode;
  pendingMessages : list (string * PendingMessage);
  appliedMessageIds : list string;
  chaosConfig : ChaosConfig;
  metrics : Metrics
}.

(** What the store asks the transport to do. *)
Inductive Effect :=
| Transmit (m : ReliableMessage)                 (** [sendViaTransport(m)] *)
| TransmitAfter (latency : Q) (m : ReliableMessage)
                                   (** [setTimeout(() => sendViaTransport(m), latency)] *)
| SendAck (messageId sender : string).           (** [sendAck(messageId, sender)] *)

Definition ACK_TIMEOUT_MS : Z := 300.
Definition MAX_RETRY_ATTEMPTS : Z := 5.
Definition CLEANUP_DELAY_MS : Z := 5000.

(** Record updates. *)
Definition with_nodes (s : Store) ns :=
  mkStore ns (pendingMessages s) (appliedMessageIds s) (chaosConfig s) (metrics s).
Definition with_pending (s : Store) pm :=
  mkStore (nodes s) pm (appliedMessageIds s) (chaosConfig s) (metrics s).
Definition with_applied (s : Store) ap :=
  mkStore (nodes s) (pendingMessages s) ap (chaosConfig s) (metrics s).
Definition with_metrics (s : Store) mt :=
  mkStore (nodes s) (pendingMessages s) (appliedMessageIds s) (chaosConfig s) mt.

Definition incr_received (m : Metrics) :=
  mkMetrics (messagesSent m) (messagesReceived m + 1) (acksReceived m) (retries m) (lastLatency m).
Definition incr_sent (m : Metrics) :=
  mkMetrics (messagesSent m + 1) (messagesReceived m) (acksReceived m) (retries m) (lastLatency m).
Definition incr_retries (m : Metrics) :=
  mkMetrics (messagesSent m) (messagesReceived m) (acksReceived m) (retries m + 1) (lastLatency m).
Definition record_ack (m : Metrics) (latency : Z) :=
  mkMetrics (messagesSent m) (messagesReceived m) (acksReceived m + 1) (retries m) latency.

(** [store.nodes.map((n) => n.id === nodeId ? { ...n, state } : n)] *)
Definition set_state_of (nodeId : string) (st : NodeState) (ns : list RoboticNode) :=
  map (fun n => if String.eqb (node_id n) nodeId
                then mkNode (node_id n) (label n) (pos_x n) (pos_y n) st else n) ns.

Definition with_acknowledged (p : PendingMessage) :=
  mkPending (message p) true (lastAttempt p).

(** [handleReliableMessage]: the boolean it returns, the store after the
    call and the transport effects, for the local client id [clientId] at
    time [now] ([Date.now()]). *)
Definition handleReliableMessage (clientId : string) (now : Z)
    (m : ReliableMessage) (s : Store) : bool * Store * list Effect :=
  let id := msg_id m in
  if set_has (appliedMessageIds s) id then
    (true, s, if negb (String.eqb (senderId m) clientId)
              then [SendAck id clientId] else [])
  else if String.eqb (senderId m) clientId then (false, s, [])
  else
    let s1 := with_metrics s (incr_received (metrics s)) in
    match body m with
    | NODE_STATE_CHANGE nodeId st =>
        (true, with_applied (with_nodes s1 (set_state_of nodeId st (nodes s1)))
                            (set_add (appliedMessageIds s1) id), [])
    | STATE_SYNC ns =>
        (true, with_applied (with_nodes s1 ns) (set_add (appliedMessageIds s1) id), [])
    | ACKNOWLEDGEMENT originalId =>
        match map_get (pendingMessages s1) originalId with
        | Some pending =>
            let pending' := with_acknowledged pending in
            let latency := now - lastAttempt pending in
            (true, with_metrics
                     (with_pending s1 (map_set (pendingMessages s1) originalId pending'))
                     (record_ack (metrics s1) latency), [])
        | None => (true, s1, [])
        end
    | UnknownType _ => (false, s1, [])
    end.

(** The initial nodes of the store. *)
Definition initialNodes : list RoboticNode :=
  [ mkNode "robot-alpha" "Robot-Alpha" 100 100 normal;
    mkNode "robot-beta" "Robot-Beta" 400 100 normal;
    mkNode "robot-gamma" "Robot-Gamma" 700 100 normal;
    mkNode "robot-delta" "Robot-Delta" 250 300 normal;
    mkNode "robot-epsilon" "Robot-Epsilon" 550 300 normal ].

Definition initialStore : Store :=
  mkStore initialNodes [] [] (mkChaos 0 0 0) (mkMetrics 0 0 0 0 0).

(** [Partial<NexusStore['chaosConfig']>] *)
Record ChaosPatch := mkPatch {
  patch_packetLossRate : option Q;
  patch_minLatency : option Q;
  patch_maxLatency : option Q
}.

Definition override {A} (o : option A) (d : A) : A :=
  match o with Some x => x | None => d end.

(** [setChaosConfig(config)]: [{ ...state.chaosConfig, ...config }]. *)
Definition setChaosConfig (config : ChaosPatch) (s : Store) : Store :=
  let c := chaosConfig s in
  mkStore (nodes s) (pendingMessages s) (appliedMessageIds s)
          (mkChaos (override (patch_packetLossRate config) (packetLossRate c))
                   (override (patch_minLatency config) (minLatency c))
                   (override (patch_maxLatency config) (maxLatency c)))
          (metrics s).

(** [chaosConfig.packetLossRate > 0 && Math.random() < chaosConfig.packetLossRate]:
    [Math.random()] is only drawn when the rate is positive. *)
Definition qltb (a b : Q) : bool := negb (Qle_bool b a).

Definition chaos_drops (cfg : ChaosConfig) (rnd : nat -> Q) (k : nat) : bool * nat :=
  if qltb 0 (packetLossRate cfg) then (qltb (rnd k) (packetLossRate cfg), S k)
  else (false, k).

(** [sendReliableMessageInternal(type, payload, senderId)], where [id] is the
    fresh identifier returned by [generateMessageId()]. *)
Definition sendReliableMessageInternal (cfg : ChaosConfig) (rnd : nat -> Q) (k : nat)
    (id : string) (now : Z) (b : MsgBody) (sender : string)
    : ReliableMessage * list Effect * nat :=
  let '(drop, k1) := chaos_drops cfg rnd k in
  let msg := mkMsg id b now sender 0 MAX_RETRY_ATTEMPTS in
  if drop then (msg, [], k1)
  else if qltb 0 (minLatency cfg) || qltb 0 (maxLatency cfg) then
    let latency := (minLatency cfg + rnd k1 * (maxLatency cfg - minLatency cfg))%Q in
    (msg, [TransmitAfter latency msg], S k1)
  else (msg, [Transmit msg], k1).

(** [setNodeState(nodeId, state)]. *)
Definition setNodeState (clientId : string) (now : Z) (id : string)
    (rnd : nat -> Q) (k : nat) (nodeId : string) (st : NodeState) (s : Store)
    : Store * list Effect * nat :=
  let '(msg, effs, k1) :=
    sendReliableMessageInternal (chaosConfig s) rnd k id now (NODE_STATE_CHANGE nodeId st) clientId in
  let pm := map_set (pendingMessages s) (msg_id msg) (mkPending msg false now) in
  (mkStore (set_state_of nodeId st (nodes s)) pm (appliedMessageIds s) (chaosConfig s)
           (incr_sent (metrics s)), effs, k1).

(** The locals of the [pendingMessages.forEach] loop of [retryPendingMessages]. *)
Record RetryAcc := mkAcc {
  acc_pending : list (string * PendingMessage);   (** [newPendingMessages] *)
  acc_metrics : Metrics;
  acc_effects : list Effect;
  acc_changed : bool;                             (** [hasChanges] *)
  acc_rng : nat
}.

(** The body of the [forEach] callback. *)
Definition retryEntry (cfg : ChaosConfig) (now : Z) (rnd : nat -> Q)
    (acc : RetryAcc) (e : string * PendingMessage) : RetryAcc :=
  let '(messageId, pending) := e in
  if acknowledged pending then acc
  else if now - lastAttempt pending <? ACK_TIMEOUT_MS then acc
  else if MAX_RETRY_ATTEMPTS <=? attempts (message pending) then
    mkAcc (map_set (acc_pending acc) messageId (with_acknowledged pending))
          (acc_metrics acc) (acc_effects acc) true (acc_rng acc)
  else
    let '(drop, k1) := chaos_drops cfg rnd (acc_rng acc) in
    if drop then
      mkAcc (map_set (acc_pending acc) messageId
                     (mkPending (message pending) (acknowledged pending) now))
            (acc_metrics acc) (acc_effects acc) true k1
    else
      let pm := message pending in
      let newAttempt := attempts pm + 1 in
      let retryMessage :=
        mkMsg (msg_id pm) (body pm) now (senderId pm) newAttempt (maxAttempts pm) in
      mkAcc (map_set (acc_pending acc) messageId
                     (mkPending retryMessage (acknowledged pending) now))
            (incr_retries (acc_metrics acc))
            (acc_effects acc ++ [Transmit retryMessage]) true k1.

(** [retryPendingMessages()] at time [now]. *)
Definition retryPendingMessages (now : Z) (rnd : nat -> Q) (k : nat) (s : Store)
    : Store * list Effect * nat :=
  let acc := fold_left (retryEntry (chaosConfig s) now rnd) (pendingMessages s)
                       (mkAcc (pendingMessages s) (metrics s) [] false k) in
  let s1 := with_metrics s (acc_metrics acc) in
  ((if acc_changed acc then with_pending s1 (acc_pending acc) else s1),
   acc_effects acc, acc_rng acc).

(** The periodic retry driver firing at the times [ts]. *)
Fixpoint retryTicks (rnd : nat -> Q) (k : nat) (ts : list Z) (s : Store)
    : Store * list Effect * nat :=
  match ts with
  | [] => (s, [], k)
  | t :: ts' =>
      let '(s1, e1, k1) := retryPendingMessages t rnd k s in
      let '(s2, e2, k2) := retryTicks rnd k1 ts' s1 in
      (s2, e1 ++ e2, k2)
  end.

(** [parseInt(str, 16)]: [None] stands for [NaN]. *)
Definition is_js_space (c : ascii) : bool :=
  let n := nat_of_ascii c in
  (n =? 32)%nat || (n =? 9)%nat || (n =? 10)%nat || (n =? 11)%nat
  || (n =? 12)%nat || (n =? 13)%nat.

Definition hex_val (c : ascii) : option Z :=
  let n := Z.of_nat (nat_of_ascii c) in
  if (48 <=? n) && (n <=? 57) then Some (n - 48)
  else if (97 <=? n) && (n <=? 102) then Some (n - 87)
  else if (65 <=? n) && (n <=? 70) then Some (n - 55)
  else None.

Fixpoint parse_hex_digits (s : string) (acc : option Z) : option Z :=
  match s with
  | EmptyString => acc
  | String c s' =>
      match hex_val c with
      | Some d => parse_hex_digits s' (Some (match acc with Some a => a * 16 + d | None => d end))
      | None => acc
      end
  end.

Fixpoint skip_space (s : string) : string :=
  match s with
  | String c s' => if is_js_space c then skip_space s' else s
  | EmptyString => s
  end.

Definition parseInt16 (str : string) : option Z :=
  let s1 := skip_space str in
  let '(sign, s2) :=
    match s1 with
    | String c r =>
        if Ascii.eqb c "-"%char then (-1, r)
        else if Ascii.eqb c "+"%char then (1, r) else (1, s1)
    | EmptyString => (1, s1)
    end in
  let s3 :=
    match s2 with
    | String z (String x r) =>
        if Ascii.eqb z "0"%char && (Ascii.eqb x "x"%char || Ascii.eqb x "X"%char)
        then r else s2
    | _ => s2
    end in
  option_map (Z.mul sign) (parse_hex_digits s3 None).

(** [now - parseInt(id.substring(0, 8), 16) * 4294966.296 < CLEANUP_DELAY_MS * 1000],
    in exact rational arithmetic; a [NaN] timestamp makes the test false. *)
Definition appliedIdIsRecent (now : Z) (id : string) : bool :=
  match parseInt16 (substring 0 8 id) with
  | None => false
  | Some v =>
      qltb (inject_Z now - inject_Z v * (4294966296 # 1000))%Q
           (inject_Z (CLEANUP_DELAY_MS * 1000))
  end.

(** [cleanupAcknowledgedMessages()] at time [now]. *)
Definition cleanupAcknowledgedMessages (now : Z) (s : Store) : Store :=
  let '(newPending, cleanedCount) :=
    fold_left (fun '(np, c) (e : string * PendingMessage) =>
                 let '(messageId, pending) := e in
                 if negb (acknowledged pending) then (map_set np messageId pending, c)
                 else if now - lastAttempt pending <? CLEANUP_DELAY_MS
                 then (map_set np messageId pending, c)
                 else (np, S c))
              (pendingMessages s) ([], 0%nat) in
  let '(newApplied, cleanedAppliedCount) :=
    fold_left (fun '(na, c) id =>
                 if appliedIdIsRecent now id then (set_add na id, c) else (na, S c))
              (appliedMessageIds s) ([], 0%nat) in
  if (0 <? cleanedCount)%nat || (0 <? cleanedAppliedCount)%nat
  then with_applied (with_pending s newPending) newApplied
  else s.

End NexusStore.

(** ** The relay's message store ([server/messageStore.ts]) *)
Module MessageStore.

(** [QueuedMessage]; the opaque [payload] is never inspected by the store
    and is left out. *)
Record QueuedMessage := mkQ {
  q_id : string;
  q_type : string;
  q_timestamp : Z;
  q_senderId : string;
  q_attempts : Z;
  q_maxAttempts : Z;
  q_acknowledged : bool
}.

Record MStore := mkMS {
  pendingMessages : list (string * QueuedMessage);
  deliveredMessages : list (string * QueuedMessage)
}.

(** The events the [EventEmitter] emits. *)
Inductive StoreEvent :=
| EvSent (m : QueuedMessage)
| EvAcknowledged (messageId : string)
| EvFailed (messageId reason : string).

(** [add(message)]. *)
Definition add (m : QueuedMessage) (s : MStore) : MStore * list StoreEvent :=
  (mkMS (map_set (pendingMessages s) (q_id m) m) (deliveredMessages s), [EvSent m]).

Definition with_attempts (m : QueuedMessage) (n : Z) :=
  mkQ (q_id m) (q_type m) (q_timestamp m) (q_senderId m) n (q_maxAttempts m) (q_acknowledged m).

Definition with_ack (m : QueuedMessage) :=
  mkQ (q_id m) (q_type m) (q_timestamp m) (q_senderId m) (q_attempts m) (q_maxAttempts m) true.

(** [acknowledge(messageId)]. *)
Definition acknowledge (messageId : string) (s : MStore)
    : bool * MStore * list StoreEvent :=
  match map_get (pendingMessages s) messageId with
  | None =>
      match map_get (deliveredMessages s) messageId with
      | Some _ => (true, s, [])
      | None => (false, s, [])
      end
  | Some m =>
      (true, mkMS (map_delete (pendingMessages s) messageId)
                  (map_set (deliveredMessages s) messageId (with_ack m)),
       [EvAcknowledged messageId])
  end.

(** [getPendingForRetry(ackTimeoutMs)] at time [now]: the list it returns
    and the events it emits. *)
Definition getPendingForRetry (now ackTimeoutMs : Z) (s : MStore)
    : list QueuedMessage * list StoreEvent :=
  fold_left
    (fun '(toRetry, evs) (e : string * QueuedMessage) =>
       let m := snd e in
       if q_acknowledged m then (toRetry, evs)
       else if q_maxAttempts m <=? q_attempts m
       then (toRetry, evs ++ [EvFailed (q_id m) "Max attempts reached"])
       else if ackTimeoutMs <=? now - q_timestamp m
       then (toRetry ++ [m], evs)
       else (toRetry, evs))
    (pendingMessages s) ([], []).

(** [incrementAttempts(messageId)]: [message.attempts++] on the stored object. *)
Definition incrementAttempts (messageId : string) (s : MStore) : MStore :=
  match map_get (pendingMessages s) messageId with
  | Some m =>
      mkMS (map_set (pendingMessages s) messageId (with_attempts m (q_attempts m + 1)))
           (deliveredMessages s)
  | None => s
  end.

Definition ACK_TIMEOUT_MS : Z := 300.

(** One firing of the relay's retry loop ([server/index.ts]): the messages of
    [toRetry] are the stored objects themselves, so the message broadcast with
    [io.emit('message:receive', message)] already carries the incremented
    attempt count. *)
Definition relayRetryTick (now : Z) (s : MStore)
    : MStore * list QueuedMessage * list StoreEvent :=
  let '(toRetry, evs) := getPendingForRetry now ACK_TIMEOUT_MS s in
  let '(s', sent) :=
    fold_left
      (fun '(st, out) (m : QueuedMessage) =>
         let st' := incrementAttempts (q_id m) st in
         let m' := match map_get (pendingMessages st') (q_id m) with
                   | Some m2 => m2 | None => m end in
         (st', out ++ [m']))
      toRetry (s, []) in
  (s', sent, evs).

(** The relay's retry loop firing at the times [ts]. *)
Fixpoint relayRetryTicks (ts : list Z) (s : MStore)
    : MStore * list QueuedMessage * list StoreEvent :=
  match ts with
  | [] => (s, [], [])
  | t :: ts' =>
      let '(s1, b1, e1) := relayRetryTick t s in
      let '(s2, b2, e2) := relayRetryTicks ts' s1 in
      (s2, b1 ++ b2, e1 ++ e2)
  end.

End MessageStore.

(** ** The relay's admission of [message:send] ([server/index.ts]) *)
Module Server.

Import MessageStore.

#[local] Set Warnings "-register-all".

(** The JSON-like values a socket event can carry. *)
Inductive JsVal :=
| JUndefined
| JNull
| JBool (b : bool)
| JNum (n : Z)
| JStr (s : string)
| JArr (xs : list JsVal)
| JObj (fields : list (string * JsVal)).

Definition truthy (v : JsVal) : bool :=
  match v with
  | JUndefined | JNull => false
  | JBool b => b
  | JNum n => negb (n =? 0)
  | JStr s => negb (String.eqb s "")
  | JArr _ | JObj _ => true
  end.

(** [typeof v === 'object'] *)
Definition is_object (v : JsVal) : bool :=
  match v with
  | JNull | JArr _ | JObj _ => true
  | _ => false
  end.

(** Property read [v.k]. *)
Definition get_prop (v : JsVal) (k : string) : JsVal :=
  match v with
  | JObj fs => match map_get fs k with Some x => x | None => JUndefined end
  | _ => JUndefined
  end.

(** [typeof x === 'string' && x]: a non-empty string. *)
Definition nonempty_string (v : JsVal) : option string :=
  match v with
  | JStr s => if String.eqb s "" then None else Some s
  | _ => None
  end.

Definition is_hex (c : ascii) : bool :=
  match NexusStore.hex_val c with Some _ => true | None => false end.

Fixpoint hex_run (n : nat) (l : list ascii) : option (list ascii) :=
  match n with
  | O => Some l
  | S n' =>
      match l with
      | c :: l' => if is_hex c then hex_run n' l' else None
      | [] => None
      end
  end.

Fixpoint hex_groups (gs : list nat) (l : list ascii) : bool :=
  match gs with
  | [] => match l with [] => true | _ => false end
  | [g] => match hex_run g l with Some [] => true | _ => false end
  | g :: gs' =>
      match hex_run g l with
      | Some (c :: r) => Ascii.eqb c "-"%char && hex_groups gs' r
      | _ => false
      end
  end.

(** [/^[0-9a-f]{8}-[0-9a-f]{4}-[0-9a-f]{4}-[0-9a-f]{4}-[0-9a-f]{12}$/i.test(s)] *)
Definition uuidRegexTest (s : string) : bool :=
  hex_groups [8; 4; 4; 4; 12]%nat (list_ascii_of_string s).

(** [validateMessage(data)]. *)
Definition validateMessage (data : JsVal) : bool :=
  if negb (truthy data) || negb (is_object data) then false
  else match nonempty_string (get_prop data "id") with
       | None => false
       | Some id =>
           match nonempty_string (get_prop data "type") with
           | None => false
           | Some _ =>
               match nonempty_string (get_prop data "senderId") with
               | None => false
               | Some _ => uuidRegexTest id
               end
           end
       end.

Definition num_or_zero (v : JsVal) : Z :=
  match v with JNum n => n | _ => 0 end.

Definition str_or_empty (v : JsVal) : string :=
  match v with JStr s => s | _ => "" end.

(** [data as QueuedMessage]: the fields the store reads.  Only reached for
    validated data; a non-numeric [timestamp]/[attempts]/[maxAttempts] is
    read as [0] here. *)
Definition toQueuedMessage (data : JsVal) : QueuedMessage :=
  mkQ (str_or_empty (get_prop data "id")) (str_or_empty (get_prop data "type"))
      (num_or_zero (get_prop data "timestamp")) (str_or_empty (get_prop data "senderId"))
      (num_or_zero (get_prop data "attempts")) (num_or_zero (get_prop data "maxAttempts"))
      (truthy (get_prop data "acknowledged")).

Definition RATE_LIMIT_MSGS_PER_SEC : Z := 100.

(** [checkRateLimit(clientId)] at time [now] on the tracker map
    ([clientId -> { count; resetTime }]). *)
Definition checkRateLimit (clientId : string) (now : Z) (tracker : list (string * (Z * Z)))
    : bool * list (string * (Z * Z)) :=
  match map_get tracker clientId with
  | Some (count, resetTime) =>
      if resetTime <? now then (true, map_set tracker clientId (1, now + 1000))
      else if RATE_LIMIT_MSGS_PER_SEC <=? count then (false, tracker)
      else (true, map_set tracker clientId (count + 1, resetTime))
  | None => (true, map_set tracker clientId (1, now + 1000))
  end.

Record Relay := mkRelay {
  rateLimitTracker : list (string * (Z * Z));
  store : MStore
}.

(** What the [message:send] handler emits. *)
Inductive Emission :=
| EmitError (message : string)                   (** [socket.emit('error', ...)] *)
| EmitReceiveToOthers (m : QueuedMessage)        (** [socket.broadcast.emit('message:receive', m)] *)
| EmitAckToSender (messageId : string).          (** [socket.emit('message:ack', ...)] *)

(** [socket.on('message:send', (data) => ...)] for the connection of [clientId]. *)
Definition onMessageSend (clientId : string) (now : Z) (data : JsVal) (r : Relay)
    : Relay * list Emission :=
  let '(ok, tr) := checkRateLimit clientId now (rateLimitTracker r) in
  if negb ok then (mkRelay tr (store r), [EmitError "Rate limit exceeded"])
  else if negb (validateMessage data) then (mkRelay tr (store r), [EmitError "Invalid message format"])
  else
    let message := toQueuedMessage data in
    let '(st', _) := add message (store r) in
    (mkRelay tr st', [EmitReceiveToOthers message; EmitAckToSender (q_id message)]).

End Server.

(** ** Vector clocks ([vectorClock.ts]) *)
Module VectorClock.

Definition VectorClock := list (string * Z).

Inductive ClockComparison := equal | greater | less | concurrent.

(** [clock[clientId] || 0] *)
Definition counter (c : VectorClock) (clientId : string) : Z :=
  match map_get c clientId with Some n => n | None => 0 end.

(** [new Set([...Object.keys(clockA), ...Object.keys(clockB)])] *)
Definition clientIds (a b : VectorClock) : list string :=
  fold_left set_add (map fst a ++ map fst b) [].

(** [compareClocks(clockA, clockB)]. *)
Definition compareClocks (clockA clockB : VectorClock) : ClockComparison :=
  let '(aGreater, bGreater) :=
    fold_left (fun '(aG, bG) clientId =>
                 let a := counter clockA clientId in
                 let b := counter clockB clientId in
                 (aG || (b <? a), bG || (a <? b)))
              (clientIds clockA clockB) (false, false) in
  if aGreater && bGreater then concurrent
  else if aGreater then greater
  else if bGreater then less
  else equal.

(** [happenedBefore(clockA, clockB)]: the [return false] of the [forEach]
    callback only leaves the callback, the loop goes on. *)
Definition happenedBefore (clockA clockB : VectorClock) : bool :=
  fold_left (fun atLeastOneLess clientId =>
               let a := counter clockA clientId in
               let b := counter clockB clientId in
               if b <? a then atLeastOneLess
               else if a <? b then true else atLeastOneLess)
            (clientIds clockA clockB) false.

End VectorClock.

(** ** The remaining store actions and the channel listener ([store.ts]) *)
Module StoreActions.

Import NexusStore.

(** [updateNodePosition(nodeId, position)]. *)
Definition updateNodePosition (nodeId : string) (x y : Z) (s : Store) : Store :=
  with_nodes s (map (fun n => if String.eqb (node_id n) nodeId
                              then mkNode (node_id n) (label n) x y (state n) else n) (nodes s)).

(** [setNodes(nodes)]. *)
Definition setNodes (ns : list RoboticNode) (s : Store) : Store := with_nodes s ns.

(** [markMessageApplied(messageId)]: [new Set([...appliedMessageIds, messageId])]. *)
Definition markMessageApplied (messageId : string) (s : Store) : Store :=
  with_applied s (set_add (appliedMessageIds s) messageId).

(** [message.type === 'ACKNOWLEDGEMENT'] *)
Definition is_ack (b : MsgBody) : bool :=
  match b with ACKNOWLEDGEMENT _ => true | _ => false end.

(** [acknowledgeMessage(messageId)]: [sendAck(messageId, getClientId())]. *)
Definition acknowledgeMessage (clientId messageId : string) : list Effect :=
  [SendAck messageId clientId].

(** The [onmessage] listener installed by [onRehydrateStorage]: handle the
    message, then acknowledge it when it was handled and is not itself an
    acknowledgement. *)
Definition onChannelMessage (clientId : string) (now : Z) (m : ReliableMessage) (s : Store)
    : Store * list Effect :=
  let '(handled, s', effs) := handleReliableMessage clientId now m s in
  (s', effs ++ if handled && negb (is_ack (body m))
               then acknowledgeMessage clientId (msg_id m) else []).

End StoreActions.

(** ** The rest of the relay: [getStats], [cleanup] and the [message:ack]
    handler ([server/messageStore.ts], [server/index.ts]) *)
Module RelayActions.

Import MessageStore Server.

(** [getStats()]: the two map sizes and the pending keys. *)
Definition getStats (s : MStore) : nat * nat * list string :=
  (length (pendingMessages s), length (deliveredMessages s), map fst (pendingMessages s)).

Definition MAX_AGE_MS : Z := 60000.
Definition CLEANUP_DELAY_MS : Z := 5000.

(** [cleanup(maxAgeMs)] at time [now]: the [forEach] visits the delivered
    entries in order and deletes the visited one when it is too old. *)
Definition cleanup (now maxAgeMs : Z) (s : MStore) : Z * MStore :=
  let '(dm, removed) :=
    fold_left (fun '(dm, removed) (e : string * QueuedMessage) =>
                 let '(id, message) := e in
                 if maxAgeMs <? now - q_timestamp message
                 then (map_delete dm id, removed + 1) else (dm, removed))
              (deliveredMessages s) (deliveredMessages s, 0) in
  (removed, mkMS (pendingMessages s) dm).

(** [clear()]. *)
Definition clear (s : MStore) : MStore := mkMS [] [].

(** What the [message:ack] handler emits: ['message:acked'] to a socket. *)
Inductive AckEmission :=
| EmitAcked (socketId : string) (messageId : JsVal).

(** [socket.on('message:ack', (data) => ...)] with the connected clients as
    [(socket.id, clientId)] in insertion order.  [None]: reading
    [data.messageId] throws (data is [null] or [undefined]).  A key that is
    not a string is in neither map, whose keys are message ids. *)
Definition onMessageAck (clients : list (string * string)) (data : JsVal) (s : MStore)
    : option (MStore * list AckEmission) :=
  match data with
  | JUndefined | JNull => None
  | _ =>
      let s' := match get_prop data "messageId" with
                | JStr id => let '(_, s', _) := acknowledge id s in s'
                | _ => s
                end in
      let target := find (fun c => match get_prop data "senderId" with
                                   | JStr sid => String.eqb (snd c) sid
                                   | _ => false
                                   end) clients in
      Some (s', match target with
                | Some (socketId, _) => [EmitAcked socketId (get_prop data "messageId")]
                | None => []
                end)
  end.

(** The object the client's [sendAck(messageId, senderId)] emits as
    ['message:ack'] over the WebSocket ([transport/index.ts]), with the fresh
    id [ackId] and [Date.now()] = [now]. *)
Definition sendAckObject (ackId messageId senderId : string) (now : Z) : JsVal :=
  JObj [("id", JStr ackId); ("type", JStr "ACKNOWLEDGEMENT");
        ("payload", JObj [("messageId", JStr messageId)]);
        ("timestamp", JNum now); ("senderId", JStr senderId);
        ("attempts", JNum 0); ("maxAttempts", JNum 1)]%string.

(** [checkRateLimit] over a sequence of calls of one client: how many were
    allowed and the tracker afterwards. *)
Fixpoint rateLimitRun (clientId : string) (ts : list Z) (tracker : list (string * (Z * Z)))
    : nat * list (string * (Z * Z)) :=
  match ts with
  | [] => (0%nat, tracker)
  | t :: ts' =>
      let '(ok, tr) := checkRateLimit clientId t tracker in
      let '(n, tr') := rateLimitRun clientId ts' tr in
      ((if ok then 1 else 0) + n, tr')%nat
  end.

End RelayActions.

(** ** The remaining vector clock operations ([vectorClock.ts]) *)
Module VectorClockOps.

Import VectorClock.

(** [createVectorClock(clientId)]. *)
Definition createVectorClock (clientId : string) : VectorClock := [(clientId, 0)].

(** [incrementClock(clock, clientId)]: [{ ...clock, [clientId]: (clock[clientId] || 0) + 1 }]. *)
Definition incrementClock (clock : VectorClock) (clientId : string) : VectorClock :=
  map_set clock clientId (counter clock clientId + 1).

(** [mergeClocks(local, remote)]. *)
Definition mergeClocks (local remote : VectorClock) : VectorClock :=
  fold_left (fun merged clientId =>
               map_set merged clientId (Z.max (counter local clientId) (counter remote clientId)))
            (clientIds local remote) local.

(** [removeClient(clock, clientId)]: [const { [clientId]: _, ...rest } = clock]. *)
Definition removeClient (clock : VectorClock) (clientId : string) : VectorClock :=
  filter (fun e => negb (String.eqb (fst e) clientId)) clock.

(** [getMaxCounter(clock)]: [Math.max(...Object.values(clock))]; [None] is
    the [-Infinity] that [Math.max] returns when given no argument. *)
Definition getMaxCounter (clock : VectorClock) : option Z :=
  fold_left (fun acc v => match acc with None => Some v | Some m => Some (Z.max m v) end)
            (map snd clock) None.

End VectorClockOps.

(** * Properties *)

Module StoreProps.

Import NexusStore.

Lemma set_has_add_same (l : list string) (x : string) :
  set_has (set_add l x) x = true.
Proof.
  unfold set_add. destruct (set_has l x) eqn:H; [exact H|].
  unfold set_has. rewrite existsb_app. simpl. rewrite String.eqb_refl.
  apply orb_true_r.
Qed.

(** C1: a foreign [NODE_STATE_CHANGE] delivered twice (no cleanup in
    between) is applied once: the first delivery of a new id applies the
    state transition; the second returns [true], leaves the whole store
    unchanged and re-sends an ACK for the id. *)
Theorem duplicate_state_change_applied_once :
  forall clientId now1 now2 m s nodeId st,
    senderId m <> clientId ->
    body m = NODE_STATE_CHANGE nodeId st ->
    let '(_, s1, _) := handleReliableMessage clientId now1 m s in
    handleReliableMessage clientId now2 m s1 = (true, s1, [SendAck (msg_id m) clientId]) /\
    (set_has (appliedMessageIds s) (msg_id m) = false ->
       nodes s1 = set_state_of nodeId st (nodes s)).
Proof.
  intros clientId now1 now2 m s nodeId st Hsender Hbody.
  assert (Hne : String.eqb (senderId m) clientId = false)
    by (apply String.eqb_neq; exact Hsender).
  unfold handleReliableMessage at 1.
  destruct (set_has (appliedMessageIds s) (msg_id m)) eqn:Hhas.
  - split.
    + unfold handleReliableMessage. rewrite Hhas, Hne. reflexivity.
    + discriminate.
  - rewrite Hne, Hbody. split.
    + unfold handleReliableMessage. simpl. rewrite set_has_add_same, Hne.
      reflexivity.
    + intros _. reflexivity.
Qed.

(** C4: a message of the local client whose id is not yet applied is
    ignored: [false] is returned, the store (nodes, applied ids, pending
    ledger, metrics) is unchanged and nothing is sent. *)
Theorem own_message_ignored :
  forall clientId now m s,
    senderId m = clientId ->
    set_has (appliedMessageIds s) (msg_id m) = false ->
    handleReliableMessage clientId now m s = (false, s, []).
Proof.
  intros clientId now m s Hsender Hnew.
  unfold handleReliableMessage. rewrite Hnew, Hsender, String.eqb_refl.
  reflexivity.
Qed.

(** *** The retry loop, entry by entry *)

Lemma map_has_app_notin {V} (l1 l2 : list (string * V)) k :
  ~ In k (map fst l1) -> map_has (l1 ++ l2) k = map_has l2 k.
Proof.
  induction l1 as [|[k' v'] l1 IH]; intros Hn; [reflexivity|].
  simpl in *. destruct (String.eqb k k') eqn:E.
  - apply String.eqb_eq in E. subst. exfalso. apply Hn. left. reflexivity.
  - simpl. apply IH. intros H. apply Hn. right. exact H.
Qed.

Lemma map_replace_app_notin {V} (l1 l2 : list (string * V)) k v :
  ~ In k (map fst l1) -> map_replace (l1 ++ l2) k v = l1 ++ map_replace l2 k v.
Proof.
  induction l1 as [|[k' v'] l1 IH]; intros Hn; [reflexivity|].
  simpl in *. destruct (String.eqb k k') eqn:E.
  - apply String.eqb_eq in E. subst. exfalso. apply Hn. left. reflexivity.
  - rewrite IH; [reflexivity|]. intros H. apply Hn. right. exact H.
Qed.

Lemma map_set_middle {V} (l1 l2 : list (string * V)) k (p v : V) :
  ~ In k (map fst l1) -> map_set (l1 ++ (k, p) :: l2) k v = l1 ++ (k, v) :: l2.
Proof.
  intros Hn. unfold map_set. rewrite map_has_app_notin by exact Hn.
  simpl. rewrite String.eqb_refl. simpl.
  rewrite map_replace_app_notin by exact Hn. simpl.
  rewrite String.eqb_refl. reflexivity.
Qed.

(** The message a retransmission sends. *)
Definition retry_of (now : Z) (m : ReliableMessage) : ReliableMessage :=
  mkMsg (msg_id m) (body m) now (senderId m) (attempts m + 1) (maxAttempts m).

(** The chaos roll can let a transmission through. *)
Definition tx_possible (cfg : ChaosConfig) (rnd : nat -> Q) : Prop :=
  exists i j, chaos_drops cfg rnd i = (false, j).

(** What one retry tick at [now] can do to one pending entry: leave it (it is
    acknowledged or not yet due), give up on it, record a dropped retry, or
    retransmit it. *)
Definition step_rel (cfg : ChaosConfig) (rnd : nat -> Q) (now : Z)
    (p p' : PendingMessage) : Prop :=
  (p' = p /\ (acknowledged p = true \/ now - lastAttempt p < ACK_TIMEOUT_MS))
  \/ (acknowledged p = false /\ ACK_TIMEOUT_MS <= now - lastAttempt p
      /\ MAX_RETRY_ATTEMPTS <= attempts (message p) /\ p' = with_acknowledged p)
  \/ (acknowledged p = false /\ ACK_TIMEOUT_MS <= now - lastAttempt p
      /\ attempts (message p) < MAX_RETRY_ATTEMPTS /\ p' = mkPending (message p) false now)
  \/ (acknowledged p = false /\ ACK_TIMEOUT_MS <= now - lastAttempt p
      /\ attempts (message p) < MAX_RETRY_ATTEMPTS /\ tx_possible cfg rnd
      /\ p' = mkPending (retry_of now (message p)) false now).

Definition entry_rel cfg rnd now (a b : string * PendingMessage) : Prop :=
  fst a = fst b /\ step_rel cfg rnd now (snd a) (snd b).

(** Every effect of a tick retransmits a due, live entry of the ledger. *)
Definition effect_ok cfg rnd now (orig : list (string * PendingMessage)) (e : Effect) : Prop :=
  tx_possible cfg rnd /\
  exists key p, In (key, p) orig /\ acknowledged p = false
    /\ attempts (message p) < MAX_RETRY_ATTEMPTS /\ e = Transmit (retry_of now (message p)).

Definition add_retries (m : Metrics) (n : nat) : Metrics :=
  mkMetrics (messagesSent m) (messagesReceived m) (acksReceived m)
            (retries m + Z.of_nat n) (lastLatency m).

Lemma add_retries_0 m : add_retries m 0 = m.
Proof. destruct m. unfold add_retries. simpl. f_equal. lia. Qed.

Lemma add_retries_S m n : incr_retries (add_retries m n) = add_retries m (S n).
Proof. destruct m. unfold add_retries, incr_retries. simpl. f_equal. lia. Qed.

Lemma forall2_keys cfg rnd now l l' :
  Forall2 (entry_rel cfg rnd now) l l' -> map fst l' = map fst l.
Proof.
  induction 1 as [|a b l l' [Hk _] _ IH]; [reflexivity|].
  simpl. rewrite IH, Hk. reflexivity.
Qed.

Ltac keep_entry IH done done' x :=
  specialize (IH (done ++ [x]) (done' ++ [x]));
  rewrite <- !app_assoc in IH; simpl in IH.

Lemma retry_fold_spec cfg now rnd (orig : list (string * PendingMessage)) m0 :
  forall todo done done' effs ch k,
    NoDup (map fst (done ++ todo)) ->
    incl todo orig ->
    Forall2 (entry_rel cfg rnd now) done done' ->
    (ch = false -> done' = done) ->
    Forall (effect_ok cfg rnd now orig) effs ->
    let acc := fold_left (retryEntry cfg now rnd) todo
                 (mkAcc (done' ++ todo) (add_retries m0 (length effs)) effs ch k) in
    exists done'', acc_pending acc = done''
      /\ Forall2 (entry_rel cfg rnd now) (done ++ todo) done''
      /\ (acc_changed acc = false -> done'' = done ++ todo)
      /\ Forall (effect_ok cfg rnd now orig) (acc_effects acc)
      /\ acc_metrics acc = add_retries m0 (length (acc_effects acc)).
Proof.
  induction todo as [|[key p] todo IH]; intros done done' effs ch k Hnd Hincl Hrel Hch Heffs.
  - simpl. exists (done' ++ []). rewrite !app_nil_r.
    repeat split; auto.
  - simpl.
    assert (Hnotin : ~ In key (map fst done')).
    { rewrite (forall2_keys _ _ _ _ _ Hrel). rewrite map_app in Hnd. simpl in Hnd.
      apply NoDup_remove_2 in Hnd. intros H. apply Hnd. apply in_or_app. left. exact H. }
    assert (Hincl' : incl todo orig) by (intros x Hx; apply Hincl; right; exact Hx).
    assert (Hin : In (key, p) orig) by (apply Hincl; left; reflexivity).
    destruct (acknowledged p) eqn:Hack.
    + keep_entry IH done done' (key, p).
      apply IH; auto.
      * apply Forall2_app; [exact Hrel|]. constructor; [|constructor].
        split; [reflexivity|]. left. split; [reflexivity|]. left. exact Hack.
      * intros Hf. rewrite (Hch Hf). reflexivity.
    + destruct (now - lastAttempt p <? ACK_TIMEOUT_MS) eqn:Hdue.
      * keep_entry IH done done' (key, p).
        apply IH; auto.
        -- apply Forall2_app; [exact Hrel|]. constructor; [|constructor].
           split; [reflexivity|]. left. split; [reflexivity|]. right.
           apply Z.ltb_lt. exact Hdue.
        -- intros Hf. rewrite (Hch Hf). reflexivity.
      * apply Z.ltb_ge in Hdue.
        destruct (MAX_RETRY_ATTEMPTS <=? attempts (message p)) eqn:Hmax.
        -- apply Z.leb_le in Hmax. simpl.
           rewrite map_set_middle by exact Hnotin.
           specialize (IH (done ++ [(key, p)]) (done' ++ [(key, with_acknowledged p)])).
           rewrite <- !app_assoc in IH. simpl in IH.
           apply IH; auto.
           ++ apply Forall2_app; [exact Hrel|]. constructor; [|constructor].
              split; [reflexivity|]. right. left. auto.
           ++ discriminate.
        -- apply Z.leb_gt in Hmax.
           destruct (chaos_drops cfg rnd k) as [drop k1] eqn:Hroll.
           destruct drop.
           ++ simpl. rewrite map_set_middle by exact Hnotin.
              specialize (IH (done ++ [(key, p)])
                             (done' ++ [(key, mkPending (message p) false now)])).
              rewrite <- !app_assoc in IH. simpl in IH.
              apply IH; auto.
              ** apply Forall2_app; [exact Hrel|]. constructor; [|constructor].
                 split; [reflexivity|]. right. right. left. auto.
              ** discriminate.
           ++ simpl. rewrite map_set_middle by exact Hnotin.
              rewrite add_retries_S.
              specialize (IH (done ++ [(key, p)])
                             (done' ++ [(key, mkPending (retry_of now (message p)) false now)])
                             (effs ++ [Transmit (retry_of now (message p))]) true k1).
              rewrite <- !app_assoc in IH. simpl in IH.
              rewrite length_app in IH. simpl in IH.
              rewrite Nat.add_1_r in IH. unfold retry_of in IH.
              apply IH; auto.
              ** apply Forall2_app; [exact Hrel|]. constructor; [|constructor].
                 split; [reflexivity|]. right. right. right.
                 repeat split; auto. exists k, k1. exact Hroll.
              ** discriminate.
              ** apply Forall_app. split; [exact Heffs|]. constructor; [|constructor].
                 split; [exists k, k1; exact Hroll|].
                 exists key, p. repeat split; auto.
Qed.

(** One firing of [retryPendingMessages], entry by entry. *)
Lemma retry_tick_spec now rnd k s :
  NoDup (map fst (pendingMessages s)) ->
  let '(s', effs, _) := retryPendingMessages now rnd k s in
  Forall2 (entry_rel (chaosConfig s) rnd now) (pendingMessages s) (pendingMessages s')
  /\ Forall (effect_ok (chaosConfig s) rnd now (pendingMessages s)) effs
  /\ metrics s' = add_retries (metrics s) (length effs)
  /\ nodes s' = nodes s /\ chaosConfig s' = chaosConfig s
  /\ appliedMessageIds s' = appliedMessageIds s.
Proof.
  intros Hnd.
  pose proof (retry_fold_spec (chaosConfig s) now rnd (pendingMessages s) (metrics s)
                (pendingMessages s) [] [] [] false k) as H.
  simpl in H. rewrite add_retries_0 in H.
  destruct (H Hnd (fun x Hx => Hx) (Forall2_nil _) (fun _ => eq_refl) (Forall_nil _))
    as [done'' [Hp [Hrel [Hch [Heff Hm]]]]].
  unfold retryPendingMessages.
  destruct (acc_changed _) eqn:Hc; simpl.
  - rewrite Hp. repeat split; auto.
  - specialize (Hch eq_refl). rewrite Hch in Hrel. repeat split; auto.
Qed.

(** *** Several retry ticks *)

Lemma forall2_compose {A} (P Q R : A -> A -> Prop) l1 l2 l3 :
  Forall2 P l1 l2 -> Forall2 Q l2 l3 ->
  (forall a b c, P a b -> Q b c -> R a c) -> Forall2 R l1 l3.
Proof.
  intros H12. revert l3. induction H12 as [|a b l1 l2 Hab _ IH]; intros l3 H23 Hc.
  - inversion H23. constructor.
  - inversion H23 as [|b' c l2' l3' Hbc H23']. subst.
    constructor; [exact (Hc _ _ _ Hab Hbc)|]. apply IH; assumption.
Qed.

Lemma forall2_map_get {V} (R : V -> V -> Prop) l l' k v :
  Forall2 (fun a b => fst a = fst b /\ R (snd a) (snd b)) l l' ->
  map_get l k = Some v -> exists v', map_get l' k = Some v' /\ R v v'.
Proof.
  induction 1 as [|[ka va] [kb vb] l l' [Hk Hr] _ IH]; [discriminate|].
  simpl in *. subst kb. destruct (String.eqb k ka).
  - intros H. injection H as <-. exists vb. split; [reflexivity|exact Hr].
  - exact IH.
Qed.

Lemma nodup_map_get {V} (l : list (string * V)) k v :
  NoDup (map fst l) -> In (k, v) l -> map_get l k = Some v.
Proof.
  induction l as [|[k' v'] l IH]; intros Hnd Hin; [destruct Hin|].
  simpl in *. inversion Hnd as [|x y Hnotin Hnd']. subst.
  destruct Hin as [Heq | Hin].
  - injection Heq as -> ->. rewrite String.eqb_refl. reflexivity.
  - destruct (String.eqb k k') eqn:E.
    + apply String.eqb_eq in E. subst. exfalso. apply Hnotin.
      apply (in_map fst) in Hin. exact Hin.
    + apply IH; assumption.
Qed.

Lemma map_has_notin {V} (l : list (string * V)) k :
  map_has l k = false -> ~ In k (map fst l).
Proof.
  induction l as [|[k' v'] l IH]; simpl; [auto|].
  intros H [Heq | Hin].
  - subst. rewrite String.eqb_refl in H. discriminate.
  - apply orb_false_iff in H as [_ H]. exact (IH H Hin).
Qed.

Lemma map_replace_keys {V} (l : list (string * V)) k v :
  map fst (map_replace l k v) = map fst l.
Proof.
  induction l as [|[k' v'] l IH]; [reflexivity|].
  simpl. destruct (String.eqb k k'); simpl; [reflexivity|]. rewrite IH. reflexivity.
Qed.

Lemma map_set_nodup {V} (l : list (string * V)) k v :
  NoDup (map fst l) -> NoDup (map fst (map_set l k v)).
Proof.
  intros Hnd. unfold map_set. destruct (map_has l k) eqn:Hh.
  - rewrite map_replace_keys. exact Hnd.
  - rewrite map_app. simpl. apply NoDup_app; auto.
    + constructor; [intros []|constructor].
    + intros x Hx [Heq | []]. subst x. exact (map_has_notin l k Hh Hx).
Qed.

Lemma map_get_replace_same {V} (l : list (string * V)) k v :
  map_has l k = true -> map_get (map_replace l k v) k = Some v.
Proof.
  induction l as [|[k' v'] l IH]; simpl; [discriminate|].
  destruct (String.eqb k k') eqn:E; simpl.
  - rewrite E. reflexivity.
  - rewrite E. exact IH.
Qed.

Lemma map_get_app_notin {V} (l : list (string * V)) k v :
  map_has l k = false -> map_get (l ++ [(k, v)]) k = Some v.
Proof.
  induction l as [|[k' v'] l IH]; simpl.
  - rewrite String.eqb_refl. reflexivity.
  - intros H. apply orb_false_iff in H as [H1 H2]. rewrite H1. exact (IH H2).
Qed.

Lemma map_get_set_same {V} (l : list (string * V)) k v :
  map_get (map_set l k v) k = Some v.
Proof.
  unfold map_set. destruct (map_has l k) eqn:Hh.
  - exact (map_get_replace_same l k v Hh).
  - exact (map_get_app_notin l k v Hh).
Qed.

Lemma retry_ticks_nil_effects (P : Effect -> Prop) (effs : list Effect) :
  Forall P effs -> (forall e, ~ P e) -> effs = [].
Proof.
  intros H Hn. destruct H as [|e l He _]; [reflexivity|]. exfalso. exact (Hn e He).
Qed.

(** With the loss rate at [1] every roll of [Math.random()] (in [[0, 1)])
    drops the transmission. *)
Lemma total_loss_drops cfg rnd :
  packetLossRate cfg = 1%Q -> (forall i, rnd i < 1)%Q -> ~ tx_possible cfg rnd.
Proof.
  intros Hrate Hrnd [i [j Hroll]]. unfold chaos_drops, qltb in Hroll.
  rewrite Hrate in Hroll. simpl in Hroll.
  destruct (Qle_bool 1 (rnd i)) eqn:E.
  - apply Qle_bool_iff in E. specialize (Hrnd i).
    apply (Qlt_not_le _ _ Hrnd) in E. destruct E.
  - discriminate.
Qed.

(** Under total loss an entry keeps its attempt count, and its
    acknowledgement flag only moves when it was already exhausted. *)
Definition loss_rel (p p' : PendingMessage) : Prop :=
  attempts (message p') = attempts (message p)
  /\ (acknowledged p' = acknowledged p
      \/ (MAX_RETRY_ATTEMPTS <= attempts (message p) /\ acknowledged p' = true)).

Definition loss_entry_rel (a b : string * PendingMessage) : Prop :=
  fst a = fst b /\ loss_rel (snd a) (snd b).

Lemma loss_rel_trans p1 p2 p3 : loss_rel p1 p2 -> loss_rel p2 p3 -> loss_rel p1 p3.
Proof.
  intros [Ha1 Hk1] [Ha2 Hk2]. split; [congruence|].
  destruct Hk1 as [Hk1 | [Hm1 Hk1]]; destruct Hk2 as [Hk2 | [Hm2 Hk2]].
  - left. congruence.
  - right. split; [lia|exact Hk2].
  - right. split; [exact Hm1|congruence].
  - right. split; [exact Hm1|exact Hk2].
Qed.

Lemma ticks_total_loss rnd :
  (forall i, rnd i < 1)%Q ->
  forall ts k s,
    packetLossRate (chaosConfig s) = 1%Q ->
    NoDup (map fst (pendingMessages s)) ->
    let '(s', effs, _) := retryTicks rnd k ts s in
    effs = [] /\ metrics s' = metrics s
    /\ Forall2 loss_entry_rel (pendingMessages s) (pendingMessages s')
    /\ nodes s' = nodes s.
Proof.
  intros Hrnd ts. induction ts as [|t ts IH]; intros k s Hrate Hnd.
  - simpl. repeat split; auto.
    induction (pendingMessages s) as [|e l IHl]; constructor; [|apply IHl].
    + split; [reflexivity|]. split; [reflexivity|]. left. reflexivity.
    + inversion Hnd. assumption.
  - cbn [retryTicks]. pose proof (retry_tick_spec t rnd k s Hnd) as Htick.
    destruct (retryPendingMessages t rnd k s) as [[s1 e1] k1].
    destruct Htick as [Hrel [Heff [Hm [Hn [Hc _]]]]].
    assert (He1 : e1 = []).
    { apply (retry_ticks_nil_effects _ _ Heff). intros e [Htx _].
      exact (total_loss_drops _ _ Hrate Hrnd Htx). }
    subst e1. simpl in Hm. rewrite add_retries_0 in Hm.
    assert (Hnd1 : NoDup (map fst (pendingMessages s1)))
      by (rewrite (forall2_keys _ _ _ _ _ Hrel); exact Hnd).
    specialize (IH k1 s1 ltac:(rewrite Hc; exact Hrate) Hnd1).
    destruct (retryTicks rnd k1 ts s1) as [[s2 e2] k2].
    destruct IH as [He2 [Hm2 [Hrel2 Hn2]]]. subst e2.
    simpl. split; [reflexivity|]. split; [congruence|]. split; [|congruence].
    apply (forall2_compose _ _ _ _ _ _ Hrel Hrel2).
    intros [ka pa] [kb pb] [kc pc] [Hkab Hab] [Hkbc Hbc]. simpl in *.
    unfold loss_entry_rel; simpl. split; [congruence|]. apply (loss_rel_trans pa pb pc); [|exact Hbc].
    assert (Hntx := total_loss_drops _ _ Hrate Hrnd).
    destruct Hab as [[-> _] | [[Hack [_ [Hmax ->]]] | [[Hack [_ [_ ->]]] | [_ [_ [_ [Htx _]]]]]]].
    + split; [reflexivity|]. left. reflexivity.
    + split; [reflexivity|]. right. split; [exact Hmax|reflexivity].
    + split; [reflexivity|]. left. simpl. congruence.
    + exfalso. exact (Hntx Htx).
Qed.

(** C2 (as the code does it): with the loss rate at [1], the original send
    and every later retry tick drop the transmission.  A dropped retry only
    refreshes [lastAttempt]; it does not count as an attempt, so the new
    entry keeps [attempts = 0], is never given up (never marked
    acknowledged), the [retries] metric never moves and nothing is ever
    transmitted to a peer, however many ticks run. *)
Theorem total_loss_never_gives_up :
  forall clientId now id rnd k nodeId st ts s,
    packetLossRate (chaosConfig s) = 1%Q ->
    (forall i, 0 <= rnd i < 1)%Q ->
    NoDup (map fst (pendingMessages s)) ->
    let '(s0, e0, k0) := setNodeState clientId now id rnd k nodeId st s in
    let '(s', e', _) := retryTicks rnd k0 ts s0 in
    e0 = [] /\ e' = []
    /\ retries (metrics s') = retries (metrics s)
    /\ exists p, map_get (pendingMessages s') id = Some p
                 /\ acknowledged p = false /\ attempts (message p) = 0.
Proof.
  intros clientId now id rnd k nodeId st ts s Hrate Hrnd Hnd.
  assert (Hlt : forall i, (rnd i < 1)%Q) by (intros i; apply Hrnd).
  assert (Hroll : chaos_drops (chaosConfig s) rnd k = (true, S k)).
  { unfold chaos_drops, qltb. rewrite Hrate. simpl.
    destruct (Qle_bool 1 (rnd k)) eqn:E; [|reflexivity].
    apply Qle_bool_iff in E. exfalso. exact (Qlt_not_le _ _ (Hlt k) E). }
  unfold setNodeState, sendReliableMessageInternal. rewrite Hroll. simpl.
  set (p0 := mkPending (mkMsg id (NODE_STATE_CHANGE nodeId st) now clientId 0 MAX_RETRY_ATTEMPTS)
                       false now).
  set (s0 := mkStore (set_state_of nodeId st (nodes s)) (map_set (pendingMessages s) id p0)
                     (appliedMessageIds s) (chaosConfig s) (incr_sent (metrics s))).
  pose proof (ticks_total_loss rnd Hlt ts (S k) s0 Hrate
                (map_set_nodup _ id p0 Hnd)) as H.
  destruct (retryTicks rnd (S k) ts s0) as [[s' e'] k'].
  destruct H as [He [Hm [Hrel _]]].
  destruct (forall2_map_get _ _ _ id p0 Hrel (map_get_set_same _ _ _)) as [p' [Hget [Ha Hk]]].
  repeat split; [exact He| |].
  - rewrite Hm. reflexivity.
  - exists p'. split; [exact Hget|]. simpl in Ha, Hk. split; [|exact Ha].
    destruct Hk as [Hk | [Hmax _]]; [exact Hk|]. unfold MAX_RETRY_ATTEMPTS in Hmax. lia.
Qed.

(** *** Exhausted entries *)

(** The ledger is keyed by the id of the message it tracks. *)
Definition keys_consistent (l : list (string * PendingMessage)) : Prop :=
  Forall (fun e => msg_id (message (snd e)) = fst e) l.

Lemma step_rel_msg_id cfg rnd now p p' :
  step_rel cfg rnd now p p' -> msg_id (message p') = msg_id (message p).
Proof.
  intros [[-> _] | [[_ [_ [_ ->]]] | [[_ [_ [_ ->]]] | [_ [_ [_ [_ ->]]]]]]];
    reflexivity.
Qed.

Lemma keys_consistent_step cfg rnd now l l' :
  Forall2 (entry_rel cfg rnd now) l l' -> keys_consistent l -> keys_consistent l'.
Proof.
  induction 1 as [|a b l l' [Hk Hr] _ IH]; intros Hc; [constructor|].
  inversion Hc as [|x y Ha Hl]. subst. constructor; [|exact (IH Hl)].
  rewrite (step_rel_msg_id _ _ _ _ _ Hr), <- Hk. exact Ha.
Qed.

Lemma exhausted_step cfg rnd now p p' :
  step_rel cfg rnd now p p' -> MAX_RETRY_ATTEMPTS <= attempts (message p) ->
  message p' = message p /\ lastAttempt p' = lastAttempt p
  /\ (acknowledged p = true -> acknowledged p' = true)
  /\ (ACK_TIMEOUT_MS <= now - lastAttempt p -> acknowledged p' = true).
Proof.
  intros Hs Hmax.
  destruct Hs as [[-> Hw] | [[Hack [Hdue [_ ->]]] | [[_ [_ [Hlt _]]] | [_ [_ [Hlt _]]]]]].
  - repeat split; auto. intros Hdue. destruct Hw as [Hw | Hw]; [exact Hw|lia].
  - repeat split; auto.
  - lia.
  - lia.
Qed.

Lemma effect_not_exhausted cfg rnd now orig X p e m :
  NoDup (map fst orig) -> keys_consistent orig ->
  map_get orig X = Some p -> MAX_RETRY_ATTEMPTS <= attempts (message p) ->
  effect_ok cfg rnd now orig e -> e = Transmit m -> msg_id m <> X.
Proof.
  intros Hnd Hkc Hget Hmax [_ [key [q [Hin [_ [Hlt ->]]]]]] Heq Hid.
  injection Heq as <-. simpl in Hid.
  unfold keys_consistent in Hkc. rewrite Forall_forall in Hkc. specialize (Hkc _ Hin). simpl in Hkc.
  assert (Hk : key = X) by congruence. rewrite <- Hk in Hget.
  rewrite (nodup_map_get _ _ _ Hnd Hin) in Hget. injection Hget as ->. lia.
Qed.

(** C3: an entry whose attempt count has reached the limit is never
    retransmitted by any later sequence of retry ticks, whatever the chaos
    configuration and random rolls; its message is left as it is, once
    marked acknowledged it stays so, and the first tick at which it is due
    ([now - lastAttempt >= ACK_TIMEOUT_MS]) marks it acknowledged (no ACK
    involved).  Sent messages carry [maxAttempts = MAX_RETRY_ATTEMPTS], the
    constant the loop compares against. *)
Theorem exhausted_entry_closed_without_retransmission :
  forall rnd ts k s X p,
    NoDup (map fst (pendingMessages s)) ->
    keys_consistent (pendingMessages s) ->
    map_get (pendingMessages s) X = Some p ->
    MAX_RETRY_ATTEMPTS <= attempts (message p) ->
    let '(s', effs, _) := retryTicks rnd k ts s in
    (forall m, In (Transmit m) effs -> msg_id m <> X)
    /\ exists p', map_get (pendingMessages s') X = Some p'
        /\ message p' = message p
        /\ (acknowledged p = true -> acknowledged p' = true)
        /\ ((exists t, In t ts /\ ACK_TIMEOUT_MS <= t - lastAttempt p) ->
            acknowledged p' = true).
Proof.
  intros rnd ts. induction ts as [|t ts IH]; intros k s X p Hnd Hkc Hget Hmax.
  - simpl. split; [intros m []|]. exists p. repeat split; auto.
    intros [t [[] _]].
  - cbn [retryTicks]. pose proof (retry_tick_spec t rnd k s Hnd) as Htick.
    destruct (retryPendingMessages t rnd k s) as [[s1 e1] k1].
    destruct Htick as [Hrel [Heff _]].
    destruct (forall2_map_get _ _ _ X p Hrel Hget) as [p1 [Hget1 Hstep]].
    destruct (exhausted_step _ _ _ _ _ Hstep Hmax) as [Hmsg [Hlast [Hmono Hdue]]].
    assert (Hnd1 : NoDup (map fst (pendingMessages s1)))
      by (rewrite (forall2_keys _ _ _ _ _ Hrel); exact Hnd).
    specialize (IH k1 s1 X p1 Hnd1 (keys_consistent_step _ _ _ _ _ Hrel Hkc) Hget1
                  ltac:(rewrite Hmsg; exact Hmax)).
    destruct (retryTicks rnd k1 ts s1) as [[s2 e2] k2].
    destruct IH as [Hno2 [p' [Hget' [Hmsg' [Hmono' Hdue']]]]].
    split.
    + intros m Hin. apply in_app_or in Hin as [Hin | Hin]; [|exact (Hno2 m Hin)].
      rewrite Forall_forall in Heff.
      exact (effect_not_exhausted _ _ _ _ X p _ m Hnd Hkc Hget Hmax (Heff _ Hin) eq_refl).
    + exists p'. split; [exact Hget'|]. split; [congruence|]. split.
      * intros Ha. exact (Hmono' (Hmono Ha)).
      * intros [t' [[<- | Hin] Ht']].
        -- exact (Hmono' (Hdue Ht')).
        -- apply Hdue'. exists t'. split; [exact Hin|]. rewrite Hlast. exact Ht'.
Qed.

(** *** Acknowledgements *)

(** C5 (as the code does it): a novel ACK from a peer targeting [T] counts
    as a received message, is answered by nothing and returns [true]; when
    the ledger has an entry for [T] — acknowledged already or not — the
    entry is set acknowledged, [acksReceived] is incremented and
    [lastLatency] becomes [now - lastAttempt]; when it has none, only
    [messagesReceived] moves. Nodes, applied ids and chaos settings are
    untouched. *)
Theorem ack_receipt_effect :
  forall clientId now m s T,
    senderId m <> clientId ->
    set_has (appliedMessageIds s) (msg_id m) = false ->
    body m = ACKNOWLEDGEMENT T ->
    let '(b, s', effs) := handleReliableMessage clientId now m s in
    b = true /\ effs = []
    /\ nodes s' = nodes s /\ appliedMessageIds s' = appliedMessageIds s
    /\ chaosConfig s' = chaosConfig s
    /\ messagesReceived (metrics s') = messagesReceived (metrics s) + 1
    /\ messagesSent (metrics s') = messagesSent (metrics s)
    /\ retries (metrics s') = retries (metrics s)
    /\ match map_get (pendingMessages s) T with
       | Some p =>
           pendingMessages s' = map_set (pendingMessages s) T (with_acknowledged p)
           /\ acksReceived (metrics s') = acksReceived (metrics s) + 1
           /\ lastLatency (metrics s') = now - lastAttempt p
       | None =>
           pendingMessages s' = pendingMessages s
           /\ acksReceived (metrics s') = acksReceived (metrics s)
           /\ lastLatency (metrics s') = lastLatency (metrics s)
       end.
Proof.
  intros clientId now m s T Hsender Hnew Hbody.
  assert (Hne : String.eqb (senderId m) clientId = false)
    by (apply String.eqb_neq; exact Hsender).
  unfold handleReliableMessage. rewrite Hnew, Hne, Hbody. simpl.
  destruct (map_get (pendingMessages s) T) as [p|]; simpl; repeat split.
Qed.

(** *** Cleanup *)

Definition keep_pending (now : Z) (e : string * PendingMessage) : bool :=
  negb (acknowledged (snd e)) || (now - lastAttempt (snd e) <? CLEANUP_DELAY_MS).

Lemma map_has_in {V} (l : list (string * V)) k :
  map_has l k = true -> In k (map fst l).
Proof.
  induction l as [|[k' v'] l IH]; simpl; [discriminate|].
  intros H. apply orb_true_iff in H as [H | H].
  - left. symmetry. apply String.eqb_eq. exact H.
  - right. exact (IH H).
Qed.

Lemma map_set_fresh {V} (l : list (string * V)) k v :
  ~ In k (map fst l) -> map_set l k v = l ++ [(k, v)].
Proof.
  intros Hn. unfold map_set. destruct (map_has l k) eqn:Hh; [|reflexivity].
  exfalso. exact (Hn (map_has_in l k Hh)).
Qed.

Lemma set_add_fresh (l : list string) x : ~ In x l -> set_add l x = l ++ [x].
Proof.
  intros Hn. unfold set_add, set_has. destruct (existsb (String.eqb x) l) eqn:E; [|reflexivity].
  apply existsb_exists in E as [y [Hy Heq]]. apply String.eqb_eq in Heq. subst y.
  exfalso. exact (Hn Hy).
Qed.

Lemma filter_all_kept {A} (f : A -> bool) l :
  length (filter (fun x => negb (f x)) l) = 0%nat -> filter f l = l.
Proof.
  induction l as [|a l IH]; simpl; [reflexivity|].
  destruct (f a); simpl; [intros H; rewrite IH; auto|discriminate].
Qed.

Lemma cleanup_pending_fold now (l np : list (string * PendingMessage)) c :
  NoDup (map fst np ++ map fst l) ->
  fold_left (fun '(np, c) (e : string * PendingMessage) =>
               let '(messageId, pending) := e in
               if negb (acknowledged pending) then (map_set np messageId pending, c)
               else if now - lastAttempt pending <? CLEANUP_DELAY_MS
               then (map_set np messageId pending, c)
               else (np, S c)) l (np, c)
  = (np ++ filter (keep_pending now) l,
     (c + length (filter (fun e => negb (keep_pending now e)) l))%nat).
Proof.
  revert np c. induction l as [|[k p] l IH]; intros np c Hnd.
  - simpl. rewrite app_nil_r, Nat.add_0_r. reflexivity.
  - simpl in Hnd.
    assert (Hk : ~ In k (map fst np)).
    { intros H. apply NoDup_remove_2 in Hnd. apply Hnd. apply in_or_app. left. exact H. }
    assert (Hnd' : NoDup (map fst (np ++ [(k, p)]) ++ map fst l)).
    { rewrite map_app, <- app_assoc. exact Hnd. }
    assert (Hnd'' : NoDup (map fst np ++ map fst l)) by (apply NoDup_remove_1 in Hnd; exact Hnd).
    cbn [fold_left filter].
    assert (Hkp : keep_pending now (k, p)
                  = negb (acknowledged p) || (now - lastAttempt p <? CLEANUP_DELAY_MS))
      by reflexivity.
    rewrite Hkp.
    destruct (acknowledged p); cbn [negb orb].
    + destruct (now - lastAttempt p <? CLEANUP_DELAY_MS); simpl.
      * rewrite map_set_fresh by exact Hk. rewrite IH by exact Hnd'.
        rewrite <- app_assoc. reflexivity.
      * rewrite IH by exact Hnd''. f_equal. lia.
    + rewrite map_set_fresh by exact Hk. rewrite IH by exact Hnd'.
      rewrite <- app_assoc. reflexivity.
Qed.

Lemma cleanup_applied_fold now (l na : list string) c :
  NoDup (na ++ l) ->
  fold_left (fun '(na, c) id =>
               if appliedIdIsRecent now id then (set_add na id, c) else (na, S c)) l (na, c)
  = (na ++ filter (appliedIdIsRecent now) l,
     (c + length (filter (fun id => negb (appliedIdIsRecent now id)) l))%nat).
Proof.
  revert na c. induction l as [|x l IH]; intros na c Hnd.
  - simpl. rewrite app_nil_r, Nat.add_0_r. reflexivity.
  - assert (Hx : ~ In x na).
    { intros H. apply NoDup_remove_2 in Hnd. apply Hnd. apply in_or_app. left. exact H. }
    simpl. destruct (appliedIdIsRecent now x); simpl.
    + rewrite set_add_fresh by exact Hx. rewrite IH by (rewrite <- app_assoc; exact Hnd).
      rewrite <- app_assoc. reflexivity.
    + rewrite IH by (apply NoDup_remove_1 in Hnd; exact Hnd). f_equal. lia.
Qed.

(** What [cleanupAcknowledgedMessages] keeps: the unacknowledged and recently
    acknowledged entries of the ledger, and the applied ids whose
    id-derived timestamp passes [appliedIdIsRecent]. *)
Lemma cleanup_spec now s :
  NoDup (map fst (pendingMessages s)) -> NoDup (appliedMessageIds s) ->
  pendingMessages (cleanupAcknowledgedMessages now s)
    = filter (keep_pending now) (pendingMessages s)
  /\ appliedMessageIds (cleanupAcknowledgedMessages now s)
    = filter (appliedIdIsRecent now) (appliedMessageIds s).
Proof.
  intros Hp Ha. unfold cleanupAcknowledgedMessages.
  rewrite (cleanup_pending_fold now _ [] 0 Hp).
  rewrite (cleanup_applied_fold now _ [] 0 Ha). simpl.
  destruct (Nat.ltb 0 (length (filter (fun e => negb (keep_pending now e)) (pendingMessages s))))
    eqn:E1;
  destruct (Nat.ltb 0 (length (filter (fun id => negb (appliedIdIsRecent now id))
                                      (appliedMessageIds s)))) eqn:E2;
  simpl; try (split; reflexivity).
  apply Nat.ltb_ge in E1, E2. split; symmetry; apply filter_all_kept; lia.
Qed.

(** A version-4 UUID, as [generateMessageId] ([uuidv4()]) returns them: its
    first eight hex digits are random. *)
Definition uuid_ffff : string := "ffffffff-ffff-4fff-bfff-ffffffffffff".

(** C6: [cleanupAcknowledgedMessages] keeps this applied id at every cleanup
    time up to [10^16] ms (the year 318857): the retention test reads the
    random first eight hex digits as a timestamp ([0xffffffff * 4294966.296],
    about [1.8 * 10^16] ms), so it is never aged out, whenever it was
    created. *)
Theorem cleanup_keeps_random_prefixed_applied_id :
  forall now, 0 <= now <= 10 ^ 16 ->
    appliedMessageIds (cleanupAcknowledgedMessages now (with_applied initialStore [uuid_ffff]))
    = [uuid_ffff].
Proof.
  intros now Hnow.
  destruct (cleanup_spec now (with_applied initialStore [uuid_ffff])) as [_ Ha];
    [constructor | repeat constructor; intros []|].
  rewrite Ha. simpl.
  assert (Hr : appliedIdIsRecent now uuid_ffff = true).
  { unfold appliedIdIsRecent, qltb, Qle_bool. simpl.
    apply negb_true_iff, Z.leb_gt. lia. }
  rewrite Hr. reflexivity.
Qed.

(** *** Chaos on the retry path *)

(** C8: the retry loop never schedules a delayed transmission: every effect
    of a tick is an immediate [sendViaTransport] of a retry message, even
    when a latency range is configured; the original send path with the
    same configuration [{ packetLossRate: 0, minLatency: 100,
    maxLatency: 200 }] delays its transmission. *)
Theorem retry_path_ignores_latency :
  forall now rnd k s,
    NoDup (map fst (pendingMessages s)) ->
    let '(_, effs, _) := retryPendingMessages now rnd k s in
    (forall lat m, ~ In (TransmitAfter lat m) effs)
    /\ (forall m, In m effs -> exists r, m = Transmit r)
    /\ (qltb 0 (minLatency (chaosConfig s)) = true -> packetLossRate (chaosConfig s) = 0%Q ->
        forall id b sender,
          exists lat m k', sendReliableMessageInternal (chaosConfig s) rnd k id now b sender
                           = (m, [TransmitAfter lat m], k')).
Proof.
  intros now rnd k s Hnd.
  pose proof (retry_tick_spec now rnd k s Hnd) as H.
  destruct (retryPendingMessages now rnd k s) as [[s' effs] k'].
  destruct H as [_ [Heff _]]. rewrite Forall_forall in Heff.
  split; [|split].
  - intros lat m Hin. destruct (Heff _ Hin) as [_ [key [p [_ [_ [_ Heq]]]]]]. discriminate.
  - intros m Hin. destruct (Heff _ Hin) as [_ [key [p [_ [_ [_ Heq]]]]]].
    eexists. exact Heq.
  - intros Hmin Hrate id b sender.
    unfold sendReliableMessageInternal, chaos_drops. rewrite Hrate. simpl.
    rewrite Hmin. simpl. do 3 eexists. reflexivity.
Qed.

End StoreProps.

Module RelayProps.

Import MessageStore.

Definition due_for_retry (now ackTimeoutMs : Z) (m : QueuedMessage) : bool :=
  negb (q_acknowledged m) && (q_attempts m <? q_maxAttempts m)
  && (ackTimeoutMs <=? now - q_timestamp m).

Definition exhausted (m : QueuedMessage) : bool :=
  negb (q_acknowledged m) && (q_maxAttempts m <=? q_attempts m).

Definition failed_event (m : QueuedMessage) : StoreEvent :=
  EvFailed (q_id m) "Max attempts reached".

Lemma retry_scan_fold now t (l : list (string * QueuedMessage)) acc evs :
  fold_left
    (fun '(toRetry, evs) (e : string * QueuedMessage) =>
       let m := snd e in
       if q_acknowledged m then (toRetry, evs)
       else if q_maxAttempts m <=? q_attempts m
       then (toRetry, evs ++ [EvFailed (q_id m) "Max attempts reached"])
       else if t <=? now - q_timestamp m
       then (toRetry ++ [m], evs)
       else (toRetry, evs)) l (acc, evs)
  = (acc ++ filter (due_for_retry now t) (map snd l),
     evs ++ map failed_event (filter exhausted (map snd l))).
Proof.
  revert acc evs. induction l as [|[k m] l IH]; intros acc evs.
  - simpl. rewrite !app_nil_r. reflexivity.
  - cbn [fold_left map filter snd]. unfold due_for_retry at 1, exhausted at 1.
    destruct (q_acknowledged m); cbn [negb andb].
    + rewrite IH. reflexivity.
    + destruct (q_maxAttempts m <=? q_attempts m) eqn:Hmax.
      * assert (Hlt : (q_attempts m <? q_maxAttempts m) = false)
          by (apply Z.ltb_ge; apply Z.leb_le in Hmax; exact Hmax).
        rewrite Hlt. cbn [andb map]. rewrite IH, <- app_assoc. reflexivity.
      * assert (Hlt : (q_attempts m <? q_maxAttempts m) = true)
          by (apply Z.ltb_lt; apply Z.leb_gt in Hmax; exact Hmax).
        rewrite Hlt. cbn [andb].
        destruct (t <=? now - q_timestamp m); rewrite IH; [rewrite <- app_assoc|]; reflexivity.
Qed.

(** [getPendingForRetry] is a filter of the pending store on the stored
    [timestamp], plus one failure report per exhausted entry. *)
Lemma getPendingForRetry_spec now t s :
  getPendingForRetry now t s
  = (filter (due_for_retry now t) (map snd (pendingMessages s)),
     map failed_event (filter exhausted (map snd (pendingMessages s)))).
Proof. unfold getPendingForRetry. rewrite retry_scan_fold. reflexivity. Qed.

(** How the relay's retry loop can change a pending entry: only its
    attempt count, and only upward. *)
Definition val_rel (m m' : QueuedMessage) : Prop :=
  q_id m' = q_id m /\ q_timestamp m' = q_timestamp m
  /\ q_maxAttempts m' = q_maxAttempts m
  /\ q_acknowledged m' = q_acknowledged m
  /\ q_attempts m <= q_attempts m'.

Definition relay_rel (a b : string * QueuedMessage) : Prop :=
  fst a = fst b /\ val_rel (snd a) (snd b).

Lemma relay_rel_refl l : Forall2 relay_rel l l.
Proof.
  induction l as [|a l IH]; constructor; [|exact IH].
  repeat split; reflexivity || lia.
Qed.

Lemma relay_rel_trans l1 l2 l3 :
  Forall2 relay_rel l1 l2 -> Forall2 relay_rel l2 l3 -> Forall2 relay_rel l1 l3.
Proof.
  intros H12. revert l3. induction H12 as [|a b l1 l2 Hab _ IH]; intros l3 H23.
  - inversion H23. constructor.
  - inversion H23 as [|b' c l2' l3' Hbc H23']. subst. constructor; [|exact (IH _ H23')].
    destruct Hab as [? [? [? [? [? ?]]]]], Hbc as [? [? [? [? [? ?]]]]].
    repeat split; congruence || lia.
Qed.

Lemma replace_incremented l k v :
  map_get l k = Some v ->
  Forall2 relay_rel l (map_replace l k (with_attempts v (q_attempts v + 1))).
Proof.
  induction l as [|[k' v'] l IH]; simpl; [discriminate|].
  destruct (String.eqb k k').
  - intros H. injection H as ->. constructor; [|apply relay_rel_refl].
    unfold relay_rel, val_rel. simpl. repeat split; reflexivity || lia.
  - intros H. constructor; [|exact (IH H)]. repeat split; reflexivity || lia.
Qed.

Lemma map_get_has {V} (l : list (string * V)) k v :
  map_get l k = Some v -> map_has l k = true.
Proof.
  induction l as [|[k' v'] l IH]; simpl; [discriminate|].
  destruct (String.eqb k k'); simpl; [reflexivity|exact IH].
Qed.

Lemma incrementAttempts_rel k s :
  Forall2 relay_rel (pendingMessages s) (pendingMessages (incrementAttempts k s)).
Proof.
  unfold incrementAttempts. destruct (map_get (pendingMessages s) k) as [m|] eqn:Hg.
  - simpl. unfold map_set. rewrite (map_get_has _ _ _ Hg).
    exact (replace_incremented _ _ _ Hg).
  - apply relay_rel_refl.
Qed.

Lemma relay_tick_rel now s :
  let '(s', _, _) := relayRetryTick now s in
  Forall2 relay_rel (pendingMessages s) (pendingMessages s').
Proof.
  assert (Hgen : forall l st out,
    Forall2 relay_rel (pendingMessages s) (pendingMessages st) ->
    Forall2 relay_rel (pendingMessages s)
      (pendingMessages (fst (fold_left
        (fun '(st, out) (m : QueuedMessage) =>
           let st' := incrementAttempts (q_id m) st in
           let m' := match map_get (pendingMessages st') (q_id m) with
                     | Some m2 => m2 | None => m end in
           (st', out ++ [m'])) l (st, out))))).
  { induction l as [|m l IH]; intros st out H; [exact H|].
    simpl. apply IH. exact (relay_rel_trans _ _ _ H (incrementAttempts_rel _ _)). }
  unfold relayRetryTick. destruct (getPendingForRetry now ACK_TIMEOUT_MS s) as [toRetry evs].
  specialize (Hgen toRetry s [] (relay_rel_refl _)).
  destruct (fold_left _ toRetry (s, [])) as [s' sent]. exact Hgen.
Qed.

Lemma relay_ticks_rel ts s :
  let '(s', _, _) := relayRetryTicks ts s in
  Forall2 relay_rel (pendingMessages s) (pendingMessages s').
Proof.
  revert s. induction ts as [|t ts IH]; intros s; [apply relay_rel_refl|].
  cbn [relayRetryTicks]. pose proof (relay_tick_rel t s) as H1.
  destruct (relayRetryTick t s) as [[s1 b1] e1].
  specialize (IH s1). destruct (relayRetryTicks ts s1) as [[s2 b2] e2].
  exact (relay_rel_trans _ _ _ H1 IH).
Qed.

Lemma relay_keys l l' : Forall2 relay_rel l l' -> map fst l' = map fst l.
Proof.
  induction 1 as [|a b l l' [Hk _] _ IH]; [reflexivity|]. simpl. rewrite IH, Hk. reflexivity.
Qed.

Lemma map_get_in {V} (l : list (string * V)) k v : map_get l k = Some v -> In (k, v) l.
Proof.
  induction l as [|[k' v'] l IH]; simpl; [discriminate|].
  destruct (String.eqb k k') eqn:E.
  - intros H. injection H as ->. apply String.eqb_eq in E. subst. left. reflexivity.
  - intros H. right. exact (IH H).
Qed.

(** C7 (as the code does it): [getPendingForRetry(timeoutMs)] returns, in
    store order, exactly the pending entries that are unacknowledged, below
    their attempt limit and whose stored [timestamp] is at least
    [timeoutMs] old, and emits one ['message:failed'] report per exhausted
    entry.  Across any run of the relay's retry loop no pending entry is
    deleted, the stored [timestamp] is never refreshed, and an exhausted
    entry stays exhausted: every later scan reports it failed again and
    leaves it out of the list. *)
Theorem relay_retry_scan :
  forall now t s,
    fst (getPendingForRetry now t s) = filter (due_for_retry now t) (map snd (pendingMessages s))
    /\ snd (getPendingForRetry now t s)
       = map failed_event (filter exhausted (map snd (pendingMessages s)))
    /\ forall ts,
         let '(s', _, _) := relayRetryTicks ts s in
         map fst (pendingMessages s') = map fst (pendingMessages s)
         /\ Forall2 relay_rel (pendingMessages s) (pendingMessages s')
         /\ forall k m, map_get (pendingMessages s) k = Some m -> exhausted m = true ->
              exists m', map_get (pendingMessages s') k = Some m' /\ exhausted m' = true
                /\ forall now' t',
                     ~ In m' (fst (getPendingForRetry now' t' s'))
                     /\ In (failed_event m') (snd (getPendingForRetry now' t' s')).
Proof.
  intros now t s. rewrite getPendingForRetry_spec. split; [reflexivity|]. split; [reflexivity|].
  intros ts. pose proof (relay_ticks_rel ts s) as Hrel.
  destruct (relayRetryTicks ts s) as [[s' sent] evs].
  split; [exact (relay_keys _ _ Hrel)|]. split; [exact Hrel|].
  intros k m Hget Hex.
  destruct (StoreProps.forall2_map_get val_rel _ _ k m Hrel Hget)
    as [m' [Hget' [Hid [Hts [Hmax [Hack Hatt]]]]]].
  assert (Hex' : exhausted m' = true).
  { unfold exhausted in *. apply andb_true_iff in Hex as [Ha Hm].
    apply Z.leb_le in Hm. rewrite Hack, Ha. simpl. apply Z.leb_le. lia. }
  exists m'. split; [exact Hget'|]. split; [exact Hex'|].
  intros now' t'. rewrite getPendingForRetry_spec. simpl. split.
  - rewrite filter_In. intros [_ Hdue]. unfold due_for_retry, exhausted in *.
    apply andb_true_iff in Hex' as [Ha Hm]. apply Z.leb_le in Hm.
    apply andb_true_iff in Hdue as [Hdue _]. apply andb_true_iff in Hdue as [_ Hlt].
    apply Z.ltb_lt in Hlt. lia.
  - apply in_map. apply filter_In. split; [|exact Hex'].
    exact (in_map snd _ _ (map_get_in _ _ _ Hget')).
Qed.

End RelayProps.

Module ServerProps.

Import MessageStore Server.

Definition is_string (v : JsVal) : bool :=
  match v with JStr _ => true | _ => false end.

(** A malformed [message:send] payload: a missing or non-string [id],
    [type] or [senderId], or an [id] that is not a UUID. *)
Definition malformed (data : JsVal) : Prop :=
  is_string (get_prop data "id") = false
  \/ is_string (get_prop data "type") = false
  \/ is_string (get_prop data "senderId") = false
  \/ (exists id, get_prop data "id" = JStr id /\ uuidRegexTest id = false).

Lemma malformed_invalid data : malformed data -> validateMessage data = false.
Proof.
  intros Hm. unfold validateMessage.
  destruct (negb (truthy data) || negb (is_object data)); [reflexivity|].
  unfold nonempty_string.
  destruct (get_prop data "id") as [| | | |id| |] eqn:Hid; try reflexivity.
  destruct (String.eqb id ""); [reflexivity|].
  destruct (get_prop data "type") as [| | | |ty| |] eqn:Hty; try reflexivity.
  destruct (String.eqb ty ""); [reflexivity|].
  destruct (get_prop data "senderId") as [| | | |sd| |] eqn:Hsd; try reflexivity.
  destruct (String.eqb sd ""); [reflexivity|].
  destruct Hm as [H | [H | [H | [id' [H1 H2]]]]].
  - rewrite Hid in H. discriminate.
  - rewrite Hty in H. discriminate.
  - rewrite Hsd in H. discriminate.
  - rewrite Hid in H1. injection H1 as <-. exact H2.
Qed.

(** C9: a malformed [message:send] payload is answered with exactly one
    [error] event to its sender (the rate-limit error or the format error)
    and is neither added to the message store nor broadcast. *)
Theorem malformed_message_rejected :
  forall clientId now data r,
    malformed data ->
    let '(r', out) := onMessageSend clientId now data r in
    store r' = store r /\ exists msg, out = [EmitError msg].
Proof.
  intros clientId now data r Hm. unfold onMessageSend.
  destruct (checkRateLimit clientId now (rateLimitTracker r)) as [ok tr].
  destruct ok; simpl.
  - rewrite (malformed_invalid data Hm). simpl. split; [reflexivity|]. eexists. reflexivity.
  - split; [reflexivity|]. eexists. reflexivity.
Qed.

End ServerProps.

Module ClockProps.

Import VectorClock.

(** [happenedBefore] only looks for a smaller counter: the early exit meant
    for a larger one never fires. *)
Lemma happenedBefore_any_less a b :
  happenedBefore a b = existsb (fun id => counter a id <? counter b id) (clientIds a b).
Proof.
  unfold happenedBefore. generalize (clientIds a b) as l.
  assert (Hgen : forall l acc,
    fold_left (fun atLeastOneLess clientId =>
                 let x := counter a clientId in
                 let y := counter b clientId in
                 if y <? x then atLeastOneLess
                 else if x <? y then true else atLeastOneLess) l acc
    = acc || existsb (fun id => counter a id <? counter b id) l).
  { induction l as [|id l IH]; intros acc; simpl; [symmetry; apply orb_false_r|].
    rewrite IH. destruct (counter b id <? counter a id) eqn:E1.
    - assert (E2 : (counter a id <? counter b id) = false)
        by (apply Z.ltb_ge; apply Z.ltb_lt in E1; lia).
      rewrite E2. reflexivity.
    - destruct (counter a id <? counter b id); simpl;
        [rewrite orb_true_r; reflexivity|reflexivity]. }
  intros l. rewrite Hgen. reflexivity.
Qed.

Definition clock_a : VectorClock := [("client-a"%string, 2)].
Definition clock_b : VectorClock := [("client-b"%string, 1)].

(** C10: on [A = {client-a: 2}], [B = {client-b: 1}] the clocks are
    concurrent for [compareClocks], yet [happenedBefore(A, B)] is [true]. *)
Theorem happenedBefore_on_concurrent_clocks :
  compareClocks clock_a clock_b = concurrent /\ happenedBefore clock_a clock_b = true.
Proof. split; vm_compute; reflexivity. Qed.

End ClockProps.

(** * Concrete runs *)

Module StoreExamples.

Import NexusStore.

Definition half : nat -> Q := fun _ => (1 # 2)%Q.

Definition peer_change : ReliableMessage :=
  mkMsg "Y" (NODE_STATE_CHANGE "robot-alpha" emergency) 0 "client-peer" 0 MAX_RETRY_ATTEMPTS.

Definition own_change : ReliableMessage :=
  mkMsg "Z" (NODE_STATE_CHANGE "robot-alpha" emergency) 0 "client-self" 0 MAX_RETRY_ATTEMPTS.

Definition peer_ack_of (T : string) : ReliableMessage :=
  mkMsg "A1" (ACKNOWLEDGEMENT T) 10 "client-peer" 0 MAX_RETRY_ATTEMPTS.

(** A store with the pending entry [p] under key [T]. *)
Definition store_with (T : string) (p : PendingMessage) : Store :=
  with_pending initialStore [(T, p)].

Definition pending_T (ack : bool) : PendingMessage :=
  mkPending (mkMsg "T" (NODE_STATE_CHANGE "robot-beta" warning) 0 "client-self" 1 MAX_RETRY_ATTEMPTS)
            ack 0.

Definition exhausted_X : PendingMessage :=
  mkPending (mkMsg "X" (NODE_STATE_CHANGE "robot-alpha" warning) 0 "client-self" 5 MAX_RETRY_ATTEMPTS)
            false 0.

Definition lossy_store : Store :=
  setChaosConfig (mkPatch (Some 1%Q) None None) initialStore.

Definition laggy_store : Store :=
  setChaosConfig (mkPatch (Some 0%Q) (Some 100%Q) (Some 200%Q)) (store_with "T" (pending_T false)).

Lemma half_in_range : forall i, (0 <= half i < 1)%Q.
Proof. intros i. split; [apply Qle_bool_imp_le | apply Qlt_alt]; reflexivity. Qed.

Lemma C1_witness :
  senderId peer_change <> "client-self"%string
  /\ body peer_change = NODE_STATE_CHANGE "robot-alpha" emergency
  /\ (let '(_, s1, _) := handleReliableMessage "client-self" 0 peer_change initialStore in
      handleReliableMessage "client-self" 5 peer_change s1
        = (true, s1, [SendAck (msg_id peer_change) "client-self"])
      /\ (set_has (appliedMessageIds initialStore) (msg_id peer_change) = false ->
          nodes s1 = set_state_of "robot-alpha" emergency (nodes initialStore))).
Proof.
  split; [simpl; discriminate|]. split; [reflexivity|].
  apply (StoreProps.duplicate_state_change_applied_once "client-self" 0 5 peer_change initialStore
           "robot-alpha" emergency); [simpl; discriminate | reflexivity].
Defined.

Lemma C2_witness :
  packetLossRate (chaosConfig lossy_store) = 1%Q
  /\ (forall i, 0 <= half i < 1)%Q
  /\ NoDup (map fst (pendingMessages lossy_store))
  /\ (let '(s0, e0, k0) := setNodeState "client-self" 0 "X" half 0 "robot-alpha" emergency lossy_store in
      let '(s', e', _) := retryTicks half k0 [300; 600; 900; 1200; 1500] s0 in
      e0 = [] /\ e' = []
      /\ retries (metrics s') = retries (metrics lossy_store)
      /\ exists p, map_get (pendingMessages s') "X" = Some p
                   /\ acknowledged p = false /\ attempts (message p) = 0).
Proof.
  split; [reflexivity|]. split; [exact half_in_range|]. split; [simpl; constructor|].
  apply (StoreProps.total_loss_never_gives_up "client-self" 0 "X" half 0 "robot-alpha" emergency
           [300; 600; 900; 1200; 1500] lossy_store);
    [reflexivity | exact half_in_range | simpl; constructor].
Defined.

(** Scenario B run through the store: total loss, five retry ticks 300 ms
    apart. The entry for [X] is still open and no retry was counted. *)
Lemma C2_total_loss_run :
  let '(s0, _, k0) := setNodeState "client-self" 0 "X" half 0 "robot-alpha" emergency lossy_store in
  let '(s', _, _) := retryTicks half k0 [300; 600; 900; 1200; 1500] s0 in
  (exists p, map_get (pendingMessages s') "X" = Some p /\ acknowledged p = false)
  /\ retries (metrics s') = 0.
Proof. vm_compute. split; [eexists; split; reflexivity | reflexivity]. Qed.

Lemma C3_witness :
  NoDup (map fst (pendingMessages (store_with "X" exhausted_X)))
  /\ StoreProps.keys_consistent (pendingMessages (store_with "X" exhausted_X))
  /\ map_get (pendingMessages (store_with "X" exhausted_X)) "X" = Some exhausted_X
  /\ MAX_RETRY_ATTEMPTS <= attempts (message exhausted_X)
  /\ (let '(s', effs, _) := retryTicks half 0 [300; 600] (store_with "X" exhausted_X) in
      (forall m, In (Transmit m) effs -> msg_id m <> "X"%string)
      /\ exists p', map_get (pendingMessages s') "X" = Some p'
          /\ message p' = message exhausted_X
          /\ (acknowledged exhausted_X = true -> acknowledged p' = true)
          /\ ((exists t, In t [300; 600] /\ ACK_TIMEOUT_MS <= t - lastAttempt exhausted_X) ->
              acknowledged p' = true)).
Proof.
  assert (Hnd : NoDup (map fst (pendingMessages (store_with "X" exhausted_X))))
    by (simpl; constructor; [intros [] | constructor]).
  assert (Hkc : StoreProps.keys_consistent (pendingMessages (store_with "X" exhausted_X)))
    by (simpl; repeat constructor).
  assert (Hmax : MAX_RETRY_ATTEMPTS <= attempts (message exhausted_X))
    by (vm_compute; discriminate).
  split; [exact Hnd|]. split; [exact Hkc|]. split; [reflexivity|]. split; [exact Hmax|].
  apply (StoreProps.exhausted_entry_closed_without_retransmission half [300; 600] 0
           (store_with "X" exhausted_X) "X" exhausted_X Hnd Hkc eq_refl Hmax).
Defined.

Lemma C4_witness :
  senderId own_change = "client-self"%string
  /\ set_has (appliedMessageIds initialStore) (msg_id own_change) = false
  /\ handleReliableMessage "client-self" 0 own_change initialStore = (false, initialStore, []).
Proof.
  split; [reflexivity|]. split; [reflexivity|].
  apply StoreProps.own_message_ignored; reflexivity.
Defined.

Lemma C5_witness :
  let s := store_with "T" (pending_T false) in
  senderId (peer_ack_of "T") <> "client-self"%string
  /\ set_has (appliedMessageIds s) (msg_id (peer_ack_of "T")) = false
  /\ body (peer_ack_of "T") = ACKNOWLEDGEMENT "T"
  /\ (let '(b, s', effs) := handleReliableMessage "client-self" 10 (peer_ack_of "T") s in
      b = true /\ effs = []
      /\ nodes s' = nodes s /\ appliedMessageIds s' = appliedMessageIds s
      /\ chaosConfig s' = chaosConfig s
      /\ messagesReceived (metrics s') = messagesReceived (metrics s) + 1
      /\ messagesSent (metrics s') = messagesSent (metrics s)
      /\ retries (metrics s') = retries (metrics s)
      /\ match map_get (pendingMessages s) "T" with
         | Some p =>
             pendingMessages s' = map_set (pendingMessages s) "T" (with_acknowledged p)
             /\ acksReceived (metrics s') = acksReceived (metrics s) + 1
             /\ lastLatency (metrics s') = 10 - lastAttempt p
         | None =>
             pendingMessages s' = pendingMessages s
             /\ acksReceived (metrics s') = acksReceived (metrics s)
             /\ lastLatency (metrics s') = lastLatency (metrics s)
         end).
Proof.
  cbv zeta. split; [simpl; discriminate|]. split; [reflexivity|]. split; [reflexivity|].
  apply (StoreProps.ack_receipt_effect "client-self" 10 (peer_ack_of "T")
           (store_with "T" (pending_T false)) "T"); [simpl; discriminate | reflexivity | reflexivity].
Defined.

(** An ACK for an entry already acknowledged still counts as a received
    ACK and overwrites the latency; an ACK for an unknown id still counts
    as a received message. *)
Lemma C5_ack_metrics_counterexample :
  (let '(_, s', _) := handleReliableMessage "client-self" 50 (peer_ack_of "T")
                        (store_with "T" (pending_T true)) in
   acksReceived (metrics s') = 1 /\ lastLatency (metrics s') = 50)
  /\ (let '(_, s', _) := handleReliableMessage "client-self" 50 (peer_ack_of "missing") initialStore in
      s' <> initialStore /\ messagesReceived (metrics s') = 1).
Proof.
  vm_compute. split; [split; reflexivity|]. split; [|reflexivity].
  intros H. injection H. discriminate.
Qed.

Lemma C6_witness :
  0 <= 1760000000000 <= 10 ^ 16
  /\ appliedMessageIds (cleanupAcknowledgedMessages 1760000000000
                          (with_applied initialStore [StoreProps.uuid_ffff]))
     = [StoreProps.uuid_ffff].
Proof.
  assert (H : 0 <= 1760000000000 <= 10 ^ 16) by lia.
  split; [exact H|]. apply (StoreProps.cleanup_keeps_random_prefixed_applied_id _ H).
Defined.

Lemma C8_witness :
  NoDup (map fst (pendingMessages laggy_store))
  /\ (let '(_, effs, _) := retryPendingMessages 300 half 0 laggy_store in
      (forall lat m, ~ In (TransmitAfter lat m) effs)
      /\ (forall m, In m effs -> exists r, m = Transmit r)
      /\ (qltb 0 (minLatency (chaosConfig laggy_store)) = true ->
          packetLossRate (chaosConfig laggy_store) = 0%Q ->
          forall id b sender,
            exists lat m k', sendReliableMessageInternal (chaosConfig laggy_store) half 0 id 300 b sender
                             = (m, [TransmitAfter lat m], k'))).
Proof.
  assert (Hnd : NoDup (map fst (pendingMessages laggy_store)))
    by (simpl; constructor; [intros [] | constructor]).
  split; [exact Hnd|].
  apply (StoreProps.retry_path_ignores_latency 300 half 0 laggy_store Hnd).
Defined.

End StoreExamples.

Module RelayExamples.

Import MessageStore.

Definition relay_store : MStore :=
  mkMS [("m1"%string, mkQ "m1" "NODE_STATE_CHANGE" 0 "client-1" 0 5 false)] [].

(** The relay retransmits [m1] at 300 ms; one millisecond later the scan
    reports it due again, 1 ms after its last transmission. *)
Lemma C7_age_from_creation_counterexample :
  let '(s1, sent, _) := relayRetryTick 300 relay_store in
  map q_id sent = ["m1"%string]
  /\ map q_id (fst (getPendingForRetry 301 ACK_TIMEOUT_MS s1)) = ["m1"%string].
Proof. vm_compute. split; reflexivity. Qed.

End RelayExamples.

Module ServerExamples.

Import MessageStore Server.

Definition bad_id_payload : JsVal :=
  JObj [("id", JStr "not-a-uuid"); ("type", JStr "NODE_STATE_CHANGE");
        ("senderId", JStr "client-1")]%string.

Definition empty_relay : Relay := mkRelay [] (mkMS [] []).

Lemma C9_witness :
  ServerProps.malformed bad_id_payload
  /\ (let '(r', out) := onMessageSend "client-1" 0 bad_id_payload empty_relay in
      store r' = store empty_relay /\ exists msg, out = [EmitError msg]).
Proof.
  assert (Hm : ServerProps.malformed bad_id_payload).
  { right; right; right. exists "not-a-uuid"%string. split; vm_compute; reflexivity. }
  split; [exact Hm|].
  apply (ServerProps.malformed_message_rejected "client-1" 0 bad_id_payload empty_relay Hm).
Defined.

End ServerExamples.

(** * Properties of the remaining operations *)

Module MapFacts.

Lemma map_get_replace_other {V} (l : list (string * V)) k k' v :
  String.eqb k' k = false -> map_get (map_replace l k v) k' = map_get l k'.
Proof.
  intros Hne. induction l as [|[a b] l IH]; simpl; [reflexivity|].
  destruct (String.eqb k a) eqn:E; simpl.
  - apply String.eqb_eq in E. subst a. rewrite Hne. reflexivity.
  - destruct (String.eqb k' a); [reflexivity|exact IH].
Qed.

Lemma map_get_app_other {V} (l : list (string * V)) k k' v :
  String.eqb k' k = false -> map_get (l ++ [(k, v)]) k' = map_get l k'.
Proof.
  intros Hne. induction l as [|[a b] l IH]; simpl; [rewrite Hne; reflexivity|].
  destruct (String.eqb k' a); [reflexivity|exact IH].
Qed.

Lemma map_get_set {V} (l : list (string * V)) k k' v :
  map_get (map_set l k v) k' = if String.eqb k' k then Some v else map_get l k'.
Proof.
  destruct (String.eqb k' k) eqn:E.
  - apply String.eqb_eq in E. subst k'. apply StoreProps.map_get_set_same.
  - unfold map_set. destruct (map_has l k).
    + exact (map_get_replace_other l k k' v E).
    + exact (map_get_app_other l k k' v E).
Qed.

Lemma map_get_none_notin {V} (l : list (string * V)) k :
  map_get l k = None <-> ~ In k (map fst l).
Proof.
  induction l as [|[a b] l IH]; simpl; [split; auto|].
  destruct (String.eqb k a) eqn:E.
  - apply String.eqb_eq in E. subst a. split; [discriminate|]. intros H. exfalso. apply H. left. reflexivity.
  - rewrite IH. split.
    + intros Hn [Heq | Hin]; [subst a; rewrite String.eqb_refl in E; discriminate|exact (Hn Hin)].
    + intros Hn Hin. apply Hn. right. exact Hin.
Qed.

Lemma map_get_delete_other {V} (l : list (string * V)) k k' :
  String.eqb k' k = false -> map_get (map_delete l k) k' = map_get l k'.
Proof.
  intros Hne. induction l as [|[a b] l IH]; simpl; [reflexivity|].
  destruct (String.eqb k a) eqn:E; simpl.
  - apply String.eqb_eq in E. subst a. rewrite Hne. reflexivity.
  - destruct (String.eqb k' a); [reflexivity|exact IH].
Qed.

Lemma map_get_delete_same {V} (l : list (string * V)) k :
  NoDup (map fst l) -> map_get (map_delete l k) k = None.
Proof.
  induction l as [|[a b] l IH]; simpl; intros Hnd; [reflexivity|].
  inversion Hnd as [|x y Hnotin Hnd']. subst.
  destruct (String.eqb k a) eqn:E; simpl.
  - apply String.eqb_eq in E. subst a. apply map_get_none_notin. exact Hnotin.
  - rewrite E. exact (IH Hnd').
Qed.

Lemma in_map_delete {V} (l : list (string * V)) k e :
  NoDup (map fst l) -> In e (map_delete l k) -> In e l /\ fst e <> k.
Proof.
  induction l as [|[a b] l IH]; simpl; intros Hnd Hin; [destruct Hin|].
  inversion Hnd as [|x y Hnotin Hnd']. subst.
  destruct (String.eqb k a) eqn:E.
  - apply String.eqb_eq in E. subst a. split; [right; exact Hin|].
    intros Hk. apply Hnotin. rewrite <- Hk. apply in_map. exact Hin.
  - destruct Hin as [<- | Hin].
    + split; [left; reflexivity|]. simpl. intros ->. rewrite String.eqb_refl in E. discriminate.
    + destruct (IH Hnd' Hin) as [H1 H2]. split; [right; exact H1|exact H2].
Qed.

Lemma map_delete_middle {V} (l1 l2 : list (string * V)) k v :
  ~ In k (map fst l1) -> map_delete (l1 ++ (k, v) :: l2) k = l1 ++ l2.
Proof.
  induction l1 as [|[a b] l1 IH]; simpl; intros Hn.
  - rewrite String.eqb_refl. reflexivity.
  - destruct (String.eqb k a) eqn:E.
    + apply String.eqb_eq in E. subst a. exfalso. apply Hn. left. reflexivity.
    + rewrite IH; [reflexivity|]. intros H. apply Hn. right. exact H.
Qed.

Lemma map_delete_length {V} (l : list (string * V)) k :
  map_has l k = true -> S (length (map_delete l k)) = length l.
Proof.
  induction l as [|[a b] l IH]; simpl; [discriminate|].
  destruct (String.eqb k a); simpl; [reflexivity|]. intros H. rewrite IH; auto.
Qed.

Lemma map_get_filter {V} (f : string * V -> bool) (l : list (string * V)) k :
  (forall v, f (k, v) = true) -> map_get (filter f l) k = map_get l k.
Proof.
  intros Hk. induction l as [|[a b] l IH]; simpl; [reflexivity|].
  destruct (String.eqb k a) eqn:E.
  - apply String.eqb_eq in E. subst a. rewrite Hk. simpl. rewrite String.eqb_refl. reflexivity.
  - destruct (f (a, b)); simpl; [rewrite E|]; exact IH.
Qed.

Lemma map_get_filter_removed {V} (f : string * V -> bool) (l : list (string * V)) k v :
  NoDup (map fst l) -> map_get l k = Some v -> f (k, v) = false ->
  map_get (filter f l) k = None.
Proof.
  intros Hnd Hget Hf. apply map_get_none_notin. intros Hin.
  apply in_map_iff in Hin as [[k' v'] [Hk Hin]]. simpl in Hk. subst k'.
  apply filter_In in Hin as [Hin Hf'].
  rewrite (StoreProps.nodup_map_get _ _ _ Hnd Hin) in Hget. injection Hget as ->.
  congruence.
Qed.

End MapFacts.

Module ClockOpsProps.

Import VectorClock VectorClockOps.

Lemma counter_set c k v id :
  counter (map_set c k v) id = if String.eqb id k then v else counter c id.
Proof. unfold counter. rewrite MapFacts.map_get_set. destruct (String.eqb id k); reflexivity. Qed.

Lemma counter_absent c id : ~ In id (map fst c) -> counter c id = 0.
Proof. intros H. unfold counter. apply MapFacts.map_get_none_notin in H. rewrite H. reflexivity. Qed.

Lemma in_set_add l x y : In y (set_add l x) <-> In y l \/ y = x.
Proof.
  unfold set_add, set_has. destruct (existsb (String.eqb x) l) eqn:E.
  - apply existsb_exists in E as [z [Hz Heq]]. apply String.eqb_eq in Heq. subst z.
    split; [auto|]. intros [H | ->]; auto.
  - rewrite in_app_iff. simpl. split.
    + intros [H | [H | []]]; [left; exact H|right; symmetry; exact H].
    + intros [H | H]; [left; exact H|right; left; symmetry; exact H].
Qed.

Lemma in_fold_set_add l acc y : In y (fold_left set_add l acc) <-> In y acc \/ In y l.
Proof.
  revert acc. induction l as [|x l IH]; intros acc; simpl.
  - tauto.
  - rewrite IH, in_set_add. split.
    + intros [[H | H] | H]; [left; exact H|right; left; symmetry; exact H|right; right; exact H].
    + intros [H | [H | H]]; [left; left; exact H|left; right; symmetry; exact H|right; exact H].
Qed.

Lemma in_clientIds a b id : In id (clientIds a b) <-> In id (map fst a) \/ In id (map fst b).
Proof.
  unfold clientIds. rewrite in_fold_set_add, in_app_iff. simpl. tauto.
Qed.

Lemma existsb_lt_iff x y l :
  (forall id, In id (map fst x) \/ In id (map fst y) -> In id l) ->
  existsb (fun id => counter x id <? counter y id) l = true
  <-> exists id, counter x id < counter y id.
Proof.
  intros Hl. rewrite existsb_exists. split.
  - intros [id [_ H]]. exists id. apply Z.ltb_lt. exact H.
  - intros [id H]. exists id. split; [|apply Z.ltb_lt; exact H]. apply Hl.
    destruct (in_dec String.string_dec id (map fst x)) as [Hx | Hx]; [left; exact Hx|].
    destruct (in_dec String.string_dec id (map fst y)) as [Hy | Hy]; [right; exact Hy|].
    rewrite (counter_absent x id Hx), (counter_absent y id Hy) in H. lia.
Qed.

Lemma aG_iff a b :
  existsb (fun id => counter b id <? counter a id) (clientIds a b) = true
  <-> exists id, counter b id < counter a id.
Proof. apply existsb_lt_iff. intros id H. apply in_clientIds. tauto. Qed.

Lemma bG_iff a b :
  existsb (fun id => counter a id <? counter b id) (clientIds a b) = true
  <-> exists id, counter a id < counter b id.
Proof. apply existsb_lt_iff. intros id H. apply in_clientIds. tauto. Qed.

Lemma compare_fold clockA clockB l x0 y0 :
  fold_left (fun '(aG, bG) clientId =>
               let a := counter clockA clientId in
               let b := counter clockB clientId in
               (aG || (b <? a), bG || (a <? b))) l (x0, y0)
  = (x0 || existsb (fun id => counter clockB id <? counter clockA id) l,
     y0 || existsb (fun id => counter clockA id <? counter clockB id) l).
Proof.
  revert x0 y0. induction l as [|id l IH]; intros x0 y0; simpl.
  - rewrite !orb_false_r. reflexivity.
  - rewrite IH, !orb_assoc. reflexivity.
Qed.

Lemma compareClocks_bool a b :
  compareClocks a b =
  let aG := existsb (fun id => counter b id <? counter a id) (clientIds a b) in
  let bG := existsb (fun id => counter a id <? counter b id) (clientIds a b) in
  if aG && bG then concurrent else if aG then greater else if bG then less else equal.
Proof. unfold compareClocks. rewrite compare_fold. reflexivity. Qed.

Lemma bool_of_iff (x y : bool) : (x = true <-> y = true) -> x = y.
Proof.
  destruct x, y; intros [H1 H2]; try reflexivity;
    [discriminate (H1 eq_refl) | discriminate (H2 eq_refl)].
Qed.

Lemma cmp_equal_iff a b :
  compareClocks a b = equal <-> forall id, counter a id = counter b id.
Proof.
  rewrite compareClocks_bool. cbv zeta.
  destruct (existsb (fun id => counter b id <? counter a id) (clientIds a b)) eqn:E1;
  destruct (existsb (fun id => counter a id <? counter b id) (clientIds a b)) eqn:E2;
  simpl; split; try (intros Hd; discriminate Hd); try (intros; reflexivity).
  - intros Heq. apply aG_iff in E1 as [id H]. specialize (Heq id). lia.
  - intros Heq. apply aG_iff in E1 as [id H]. specialize (Heq id). lia.
  - intros Heq. apply bG_iff in E2 as [id H]. specialize (Heq id). lia.
  - intros _ id. destruct (Z.lt_total (counter a id) (counter b id)) as [H | [H | H]]; [| exact H |].
    + assert (Hc : exists id, counter a id < counter b id) by (exists id; exact H).
      apply bG_iff in Hc. congruence.
    + assert (Hc : exists id, counter b id < counter a id) by (exists id; exact H).
      apply aG_iff in Hc. congruence.
Qed.

Lemma cmp_less_iff a b :
  compareClocks a b = less
  <-> (forall id, counter a id <= counter b id) /\ exists id, counter a id < counter b id.
Proof.
  rewrite compareClocks_bool. cbv zeta.
  destruct (existsb (fun id => counter b id <? counter a id) (clientIds a b)) eqn:E1;
  destruct (existsb (fun id => counter a id <? counter b id) (clientIds a b)) eqn:E2;
  simpl; split; try (intros Hd; discriminate Hd); try (intros; reflexivity).
  - intros [Hle _]. apply aG_iff in E1 as [id H]. specialize (Hle id). lia.
  - intros [Hle _]. apply aG_iff in E1 as [id H]. specialize (Hle id). lia.
  - intros _. split; [|apply bG_iff; exact E2].
    intros id. destruct (Z.le_gt_cases (counter a id) (counter b id)) as [H | H]; [exact H|].
    assert (Hc : exists id, counter b id < counter a id) by (exists id; lia).
    apply aG_iff in Hc. congruence.
  - intros [_ Hc]. apply bG_iff in Hc. congruence.
Qed.

Definition flip (c : ClockComparison) : ClockComparison :=
  match c with
  | equal => equal
  | greater => less
  | less => greater
  | concurrent => concurrent
  end.

Lemma cmp_flip a b : compareClocks b a = flip (compareClocks a b).
Proof.
  rewrite !compareClocks_bool. cbv zeta.
  rewrite (bool_of_iff (existsb (fun id => counter a id <? counter b id) (clientIds b a))
                       (existsb (fun id => counter a id <? counter b id) (clientIds a b)))
    by (rewrite aG_iff, bG_iff; reflexivity).
  rewrite (bool_of_iff (existsb (fun id => counter b id <? counter a id) (clientIds b a))
                       (existsb (fun id => counter b id <? counter a id) (clientIds a b)))
    by (rewrite bG_iff, aG_iff; reflexivity).
  destruct (existsb (fun id => counter b id <? counter a id) (clientIds a b));
  destruct (existsb (fun id => counter a id <? counter b id) (clientIds a b)); reflexivity.
Qed.

(** [compareClocks] is the componentwise order of the counters (a missing
    entry counts as [0]): [less] when no counter of [A] exceeds [B]'s and
    one is smaller, [greater] symmetrically, [equal] when all counters
    agree, [concurrent] otherwise; swapping the arguments swaps [less] and
    [greater]. *)
Theorem compareClocks_componentwise :
  forall a b,
    (compareClocks a b = equal <-> forall id, counter a id = counter b id)
    /\ (compareClocks a b = less
        <-> (forall id, counter a id <= counter b id) /\ exists id, counter a id < counter b id)
    /\ (compareClocks a b = greater
        <-> (forall id, counter b id <= counter a id) /\ exists id, counter b id < counter a id)
    /\ compareClocks b a = flip (compareClocks a b).
Proof.
  intros a b. split; [apply cmp_equal_iff|]. split; [apply cmp_less_iff|].
  split; [|apply cmp_flip].
  rewrite <- (cmp_less_iff b a), (cmp_flip a b).
  destruct (compareClocks a b); simpl; split; congruence.
Qed.

(** [happenedBefore(A, B)] holds exactly when some counter of [A] is
    smaller than [B]'s, whatever the other counters are. *)
Theorem happenedBefore_iff_some_smaller :
  forall a b, happenedBefore a b = true <-> exists id, counter a id < counter b id.
Proof. intros a b. rewrite ClockProps.happenedBefore_any_less. apply bG_iff. Qed.

(** [incrementClock(clock, id)] raises [id]'s counter by one, leaves every
    other counter alone, and the result compares [greater] than the input. *)
Theorem incrementClock_greater :
  forall c id,
    counter (incrementClock c id) id = counter c id + 1
    /\ (forall id', id' <> id -> counter (incrementClock c id) id' = counter c id')
    /\ compareClocks (incrementClock c id) c = greater.
Proof.
  intros c id.
  assert (Hc : forall id', counter (incrementClock c id) id'
                           = if String.eqb id' id then counter c id + 1 else counter c id')
    by (intros id'; apply counter_set).
  split; [rewrite Hc, String.eqb_refl; reflexivity|]. split.
  - intros id' Hne. rewrite Hc. apply String.eqb_neq in Hne. rewrite Hne. reflexivity.
  - assert (Hl : compareClocks c (incrementClock c id) = less).
    { apply cmp_less_iff. split.
      - intros id'. rewrite Hc. destruct (String.eqb id' id) eqn:E; [|lia].
        apply String.eqb_eq in E. subst id'. lia.
      - exists id. rewrite Hc, String.eqb_refl. lia. }
    rewrite cmp_flip, Hl. reflexivity.
Qed.

Lemma counter_fold_set f l acc id :
  counter (fold_left (fun merged clientId => map_set merged clientId (f clientId)) l acc) id
  = if existsb (String.eqb id) l then f id else counter acc id.
Proof.
  revert acc. induction l as [|x l IH]; intros acc; simpl; [reflexivity|].
  rewrite IH, counter_set. destruct (String.eqb id x) eqn:E; simpl;
    destruct (existsb (String.eqb id) l); try reflexivity.
  apply String.eqb_eq in E. subst. reflexivity.
Qed.

Lemma counter_merge a b id :
  counter (mergeClocks a b) id = Z.max (counter a id) (counter b id).
Proof.
  unfold mergeClocks. rewrite counter_fold_set.
  destruct (existsb (String.eqb id) (clientIds a b)) eqn:E; [reflexivity|].
  assert (Hn : ~ In id (clientIds a b)).
  { intros Hin. assert (Hx : existsb (String.eqb id) (clientIds a b) = true)
      by (apply existsb_exists; exists id; split; [exact Hin|apply String.eqb_refl]).
    congruence. }
  rewrite in_clientIds in Hn.
  rewrite (counter_absent a id), (counter_absent b id) by tauto. reflexivity.
Qed.

(** [mergeClocks(local, remote)] takes the larger counter of each client;
    the result does not depend on the argument order, and each input
    compares [less] or [equal] to it. *)
Theorem mergeClocks_upper_bound :
  forall a b,
    (forall id, counter (mergeClocks a b) id = Z.max (counter a id) (counter b id))
    /\ compareClocks (mergeClocks a b) (mergeClocks b a) = equal
    /\ (compareClocks a (mergeClocks a b) = less \/ compareClocks a (mergeClocks a b) = equal)
    /\ (compareClocks b (mergeClocks a b) = less \/ compareClocks b (mergeClocks a b) = equal).
Proof.
  assert (Hbound : forall x m, (forall id, counter x id <= counter m id) ->
                   compareClocks x m = less \/ compareClocks x m = equal).
  { intros x m Hle. rewrite compareClocks_bool. cbv zeta.
    destruct (existsb (fun id => counter m id <? counter x id) (clientIds x m)) eqn:E1.
    - apply aG_iff in E1 as [id H]. specialize (Hle id). lia.
    - simpl. destruct (existsb (fun id => counter x id <? counter m id) (clientIds x m));
        [left | right]; reflexivity. }
  intros a b. split; [apply counter_merge|]. split.
  - apply cmp_equal_iff. intros id. rewrite !counter_merge. lia.
  - split; apply Hbound; intros id; rewrite counter_merge; lia.
Qed.

End ClockOpsProps.

Module RelayActionProps.

Import MessageStore Server RelayActions.

(** The pending store is keyed by the id of the message it holds. *)
Definition ids_consistent (l : list (string * QueuedMessage)) : Prop :=
  Forall (fun e => q_id (snd e) = fst e) l.

Lemma not_in_deleted l id m :
  NoDup (map fst l) -> ids_consistent l ->
  In m (map snd (map_delete l id)) -> q_id m <> id.
Proof.
  intros Hnd Hc Hin. apply in_map_iff in Hin as [[k v] [Hv Hin]]. simpl in Hv. subst v.
  destruct (MapFacts.in_map_delete l id (k, m) Hnd Hin) as [Hin' Hk]. simpl in Hk.
  unfold ids_consistent in Hc. rewrite Forall_forall in Hc. specialize (Hc _ Hin'). simpl in Hc.
  congruence.
Qed.

(** [acknowledge(id)] of a pending message moves it to the delivered map
    (flagged acknowledged), returns [true] and leaves the other pending
    entries alone; the pending count drops by one.  From then on no retry
    scan returns it or reports it failed, and a repeated [acknowledge(id)]
    returns [true] and changes nothing. *)
Theorem acknowledge_pending_message :
  forall id m s,
    NoDup (map fst (pendingMessages s)) ->
    ids_consistent (pendingMessages s) ->
    map_get (pendingMessages s) id = Some m ->
    let '(ok, s', evs) := acknowledge id s in
    ok = true /\ evs = [EvAcknowledged id]
    /\ map_get (pendingMessages s') id = None
    /\ map_get (deliveredMessages s') id = Some (with_ack m)
    /\ (forall k, k <> id -> map_get (pendingMessages s') k = map_get (pendingMessages s) k)
    /\ S (length (pendingMessages s')) = length (pendingMessages s)
    /\ (forall now t, (forall m', In m' (fst (getPendingForRetry now t s')) -> q_id m' <> id)
                      /\ ~ In (EvFailed id "Max attempts reached") (snd (getPendingForRetry now t s')))
    /\ acknowledge id s' = (true, s', []).
Proof.
  intros id m s Hnd Hc Hget. unfold acknowledge. rewrite Hget. simpl.
  assert (Hnone : map_get (map_delete (pendingMessages s) id) id = None)
    by exact (MapFacts.map_get_delete_same _ _ Hnd).
  split; [reflexivity|]. split; [reflexivity|]. split; [exact Hnone|].
  split; [apply StoreProps.map_get_set_same|]. split.
  { intros k Hk. apply MapFacts.map_get_delete_other. apply String.eqb_neq. exact Hk. }
  split; [exact (MapFacts.map_delete_length _ _ (RelayProps.map_get_has _ _ _ Hget))|]. split.
  - intros now t. rewrite RelayProps.getPendingForRetry_spec. simpl. split.
    + intros m' Hin. apply filter_In in Hin as [Hin _].
      exact (not_in_deleted _ _ _ Hnd Hc Hin).
    + intros Hin. apply in_map_iff in Hin as [m' [Hev Hin]].
      unfold RelayProps.failed_event in Hev. injection Hev as Hid.
      apply filter_In in Hin as [Hin _].
      exact (not_in_deleted _ _ _ Hnd Hc Hin Hid).
  - rewrite Hnone, StoreProps.map_get_set_same. reflexivity.
Qed.

Lemma cleanup_fold now maxAgeMs kept l r :
  NoDup (map fst kept ++ map fst l) ->
  fold_left (fun '(dm, removed) (e : string * QueuedMessage) =>
               let '(id, message) := e in
               if maxAgeMs <? now - q_timestamp message
               then (map_delete dm id, removed + 1) else (dm, removed))
            l (kept ++ l, r)
  = (kept ++ filter (fun e => now - q_timestamp (snd e) <=? maxAgeMs) l,
     r + Z.of_nat (length (filter (fun e => maxAgeMs <? now - q_timestamp (snd e)) l))).
Proof.
  revert kept r. induction l as [|[id m] l IH]; intros kept r Hnd; simpl.
  - rewrite Z.add_0_r. reflexivity.
  - assert (Hnotin : ~ In id (map fst kept)).
    { intros Hin. simpl in Hnd.
      apply (NoDup_remove_2 _ _ _ Hnd). apply in_or_app. left. exact Hin. }
    destruct (maxAgeMs <? now - q_timestamp m) eqn:E.
    + assert (Hle : (now - q_timestamp m <=? maxAgeMs) = false)
        by (apply Z.leb_gt; apply Z.ltb_lt in E; exact E).
      rewrite Hle. rewrite (MapFacts.map_delete_middle kept l id m Hnotin).
      rewrite IH.
      * simpl. f_equal. lia.
      * simpl in Hnd. apply NoDup_remove_1 in Hnd. exact Hnd.
    + assert (Hle : (now - q_timestamp m <=? maxAgeMs) = true)
        by (apply Z.leb_le; apply Z.ltb_ge in E; exact E).
      rewrite Hle.
      replace (kept ++ (id, m) :: l) with ((kept ++ [(id, m)]) ++ l)
        by (rewrite <- app_assoc; reflexivity).
      rewrite IH.
      * rewrite <- app_assoc. reflexivity.
      * rewrite map_app, <- app_assoc. exact Hnd.
Qed.

(** [cleanup(maxAgeMs)] deletes exactly the delivered messages whose
    [timestamp] is more than [maxAgeMs] old, keeps the others in order,
    returns how many it deleted and leaves the pending store alone; an
    [acknowledge(id)] arriving after its message was cleaned up (and is not
    pending again) returns [false]. *)
Theorem cleanup_removes_old_delivered :
  forall now maxAgeMs s,
    NoDup (map fst (deliveredMessages s)) ->
    let '(removed, s') := cleanup now maxAgeMs s in
    pendingMessages s' = pendingMessages s
    /\ deliveredMessages s'
       = filter (fun e => now - q_timestamp (snd e) <=? maxAgeMs) (deliveredMessages s)
    /\ removed = Z.of_nat (length (filter (fun e => maxAgeMs <? now - q_timestamp (snd e))
                                          (deliveredMessages s)))
    /\ forall id m, map_get (deliveredMessages s) id = Some m ->
         maxAgeMs < now - q_timestamp m -> map_get (pendingMessages s) id = None ->
         acknowledge id s' = (false, s', []).
Proof.
  intros now maxAgeMs s Hnd. unfold cleanup.
  pose proof (cleanup_fold now maxAgeMs [] (deliveredMessages s) 0 Hnd) as Hf.
  cbn [app] in Hf. rewrite Hf. simpl.
  split; [reflexivity|]. split; [reflexivity|]. split; [reflexivity|].
  intros id m Hget Hold Hpend. unfold acknowledge. simpl. rewrite Hpend.
  rewrite (MapFacts.map_get_filter_removed _ _ id m Hnd Hget); [reflexivity|].
  simpl. apply Z.leb_gt. exact Hold.
Qed.

Lemma find_emissions (clients : list (string * string)) (p : string * string -> bool) v :
  forall sock w,
    In (EmitAcked sock w) (match find p clients with
                           | Some (socketId, _) => [EmitAcked socketId v]
                           | None => []
                           end) -> w = v.
Proof.
  intros sock w. destruct (find p clients) as [[sid cid]|]; simpl; [|intros []].
  intros [H | []]. injection H as _ ->. reflexivity.
Qed.

(** The relay's ['message:ack'] handler reads [data.messageId], but the
    client's [sendAck] puts the acknowledged id in [payload.messageId]: for
    every ACK the client sends, the handler leaves the message store
    unchanged (nothing is acknowledged) and any ['message:acked'] it emits
    carries [messageId: undefined]. *)
Theorem client_ack_never_acknowledges_on_relay :
  forall clients s ackId messageId senderId now,
    exists out,
      onMessageAck clients (sendAckObject ackId messageId senderId now) s = Some (s, out)
      /\ forall sock v, In (EmitAcked sock v) out -> v = JUndefined.
Proof.
  intros clients s ackId messageId senderId now. unfold onMessageAck, sendAckObject.
  cbn [get_prop map_get String.eqb Ascii.eqb Bool.eqb andb].
  eexists. split; [reflexivity|]. apply find_emissions.
Qed.

(** A [message:send] payload that passes the rate limit and [validateMessage]
    is stored under its [id] (replacing any earlier copy with that id),
    broadcast to the other clients and acknowledged to the sender; the other
    pending entries and the delivered map are unchanged. *)
Theorem accepted_message_stored_and_broadcast :
  forall clientId now data r,
    fst (checkRateLimit clientId now (rateLimitTracker r)) = true ->
    validateMessage data = true ->
    let m := toQueuedMessage data in
    let '(r', out) := onMessageSend clientId now data r in
    out = [EmitReceiveToOthers m; EmitAckToSender (q_id m)]
    /\ map_get (pendingMessages (store r')) (q_id m) = Some m
    /\ (forall k, k <> q_id m ->
          map_get (pendingMessages (store r')) k = map_get (pendingMessages (store r)) k)
    /\ deliveredMessages (store r') = deliveredMessages (store r)
    /\ rateLimitTracker r' = snd (checkRateLimit clientId now (rateLimitTracker r)).
Proof.
  intros clientId now data r Hrate Hvalid. cbv zeta. unfold onMessageSend.
  destruct (checkRateLimit clientId now (rateLimitTracker r)) as [ok tr]. simpl in Hrate. subst ok.
  rewrite Hvalid. simpl.
  split; [reflexivity|]. split; [apply StoreProps.map_get_set_same|]. split; [|split; reflexivity].
  intros k Hk. rewrite MapFacts.map_get_set. apply String.eqb_neq in Hk. rewrite Hk. reflexivity.
Qed.

Lemma rate_window clientId ts :
  forall tracker n R,
    map_get tracker clientId = Some (n, R) -> 0 <= n <= RATE_LIMIT_MSGS_PER_SEC ->
    Forall (fun t => t <= R) ts ->
    fst (rateLimitRun clientId ts tracker) = Nat.min (length ts) (Z.to_nat (RATE_LIMIT_MSGS_PER_SEC - n))
    /\ forall c, c <> clientId ->
         map_get (snd (rateLimitRun clientId ts tracker)) c = map_get tracker c.
Proof.
  assert (HR : RATE_LIMIT_MSGS_PER_SEC = 100) by reflexivity.
  induction ts as [|t ts IH]; intros tracker n R Hget Hn Hts; [split; reflexivity|].
  inversion Hts as [|x y Ht Hts']. subst.
  cbn [rateLimitRun]. unfold checkRateLimit. rewrite Hget.
  assert (Hr : (R <? t) = false) by (apply Z.ltb_ge; exact Ht). rewrite Hr.
  destruct (RATE_LIMIT_MSGS_PER_SEC <=? n) eqn:Hfull.
  - apply Z.leb_le in Hfull.
    destruct (IH tracker n R Hget Hn Hts') as [Hc Ho].
    destruct (rateLimitRun clientId ts tracker) as [k tr']. cbn [fst snd] in *. split; [|exact Ho].
    rewrite Hc. replace (Z.to_nat (RATE_LIMIT_MSGS_PER_SEC - n)) with 0%nat by lia.
    rewrite !Nat.min_0_r. reflexivity.
  - apply Z.leb_gt in Hfull.
    destruct (IH (map_set tracker clientId (n + 1, R)) (n + 1) R
                 (StoreProps.map_get_set_same _ _ _) ltac:(lia) Hts') as [Hc Ho].
    destruct (rateLimitRun clientId ts (map_set tracker clientId (n + 1, R))) as [k tr'].
    cbn [fst snd] in *. split.
    + rewrite Hc. replace (Z.to_nat (RATE_LIMIT_MSGS_PER_SEC - n))
        with (S (Z.to_nat (RATE_LIMIT_MSGS_PER_SEC - (n + 1)))) by lia.
      reflexivity.
    + intros c Hne. rewrite (Ho c Hne), MapFacts.map_get_set.
      apply String.eqb_neq in Hne. rewrite Hne. reflexivity.
Qed.

(** Rate limiting: once a client's window opens at [t0] (it had no tracker
    entry, or its window had expired), of its calls up to [t0 + 1000] ms
    exactly the first [RATE_LIMIT_MSGS_PER_SEC] = 100 are allowed; the
    other clients' tracker entries are untouched. *)
Theorem rate_limit_window :
  forall clientId t0 ts tracker,
    (forall n R, map_get tracker clientId = Some (n, R) -> R < t0) ->
    Forall (fun t => t <= t0 + 1000) ts ->
    fst (rateLimitRun clientId (t0 :: ts) tracker) = Nat.min (S (length ts)) 100
    /\ forall c, c <> clientId ->
         map_get (snd (rateLimitRun clientId (t0 :: ts) tracker)) c = map_get tracker c.
Proof.
  intros clientId t0 ts tracker Hexp Hts.
  assert (Hfirst : checkRateLimit clientId t0 tracker
                   = (true, map_set tracker clientId (1, t0 + 1000))).
  { unfold checkRateLimit. destruct (map_get tracker clientId) as [[n R]|] eqn:Hg; [|reflexivity].
    rewrite (proj2 (Z.ltb_lt R t0) (Hexp n R eq_refl)). reflexivity. }
  cbn [rateLimitRun]. rewrite Hfirst.
  destruct (rate_window clientId ts (map_set tracker clientId (1, t0 + 1000)) 1 (t0 + 1000)
              (StoreProps.map_get_set_same _ _ _) ltac:(unfold RATE_LIMIT_MSGS_PER_SEC; lia) Hts)
    as [Hc Ho].
  destruct (rateLimitRun clientId ts (map_set tracker clientId (1, t0 + 1000))) as [k tr'].
  cbn [fst snd] in *. split.
  - rewrite Hc. reflexivity.
  - intros c Hne. rewrite (Ho c Hne), MapFacts.map_get_set.
    apply String.eqb_neq in Hne. rewrite Hne. reflexivity.
Qed.

End RelayActionProps.

Module StoreActionProps.

Import NexusStore StoreActions.

(** The channel listener acknowledges a first delivery of a peer's
    [NODE_STATE_CHANGE] or [STATE_SYNC] once; a second delivery of the same
    id changes nothing but is acknowledged twice, once inside
    [handleReliableMessage] and once more by the listener. *)
Theorem listener_acks_duplicate_twice :
  forall clientId now1 now2 m s,
    senderId m <> clientId ->
    set_has (appliedMessageIds s) (msg_id m) = false ->
    (exists nodeId st, body m = NODE_STATE_CHANGE nodeId st) \/ (exists ns, body m = STATE_SYNC ns) ->
    let '(s1, e1) := onChannelMessage clientId now1 m s in
    e1 = [SendAck (msg_id m) clientId]
    /\ onChannelMessage clientId now2 m s1
       = (s1, [SendAck (msg_id m) clientId; SendAck (msg_id m) clientId]).
Proof.
  intros clientId now1 now2 m s Hsender Happ Hbody.
  assert (Hne : String.eqb (senderId m) clientId = false) by (apply String.eqb_neq; exact Hsender).
  unfold onChannelMessage, handleReliableMessage. rewrite Happ, Hne.
  destruct Hbody as [[nodeId [st Hb]] | [ns Hb]]; rewrite Hb; simpl;
    (split; [reflexivity|]); rewrite StoreProps.set_has_add_same; reflexivity.
Qed.

(** The listener sends nothing for an echo of the client's own message or
    for an incoming acknowledgement whose id it has not applied. *)
Theorem listener_silent_on_own_echo_and_acks :
  forall clientId now m s,
    set_has (appliedMessageIds s) (msg_id m) = false ->
    senderId m = clientId \/ is_ack (body m) = true ->
    snd (onChannelMessage clientId now m s) = [].
Proof.
  intros clientId now m s Happ Hcase. unfold onChannelMessage, handleReliableMessage.
  rewrite Happ. destruct (String.eqb (senderId m) clientId) eqn:Hs; [reflexivity|].
  destruct Hcase as [Hown | Hack].
  - rewrite Hown, String.eqb_refl in Hs. discriminate.
  - destruct (body m) as [nodeId st | ns | T | ty]; try discriminate.
    simpl. destruct (map_get (pendingMessages s) T); reflexivity.
Qed.

(** After [markMessageApplied(id)], a message with that id is handled as a
    duplicate: [true] is returned, the store is left as it is and the only
    effect is an ACK when the message is a peer's. *)
Theorem marked_id_handled_as_duplicate :
  forall clientId now m s,
    handleReliableMessage clientId now m (markMessageApplied (msg_id m) s)
    = (true, markMessageApplied (msg_id m) s,
       if negb (String.eqb (senderId m) clientId) then [SendAck (msg_id m) clientId] else []).
Proof.
  intros clientId now m s. unfold handleReliableMessage, markMessageApplied. simpl.
  rewrite StoreProps.set_has_add_same. reflexivity.
Qed.

Lemma in_map_replace {V} (l : list (string * V)) k v e :
  In e (map_replace l k v) -> In e l \/ e = (k, v).
Proof.
  induction l as [|[a b] l IH]; simpl; [intros []|].
  destruct (String.eqb k a) eqn:E; simpl.
  - apply String.eqb_eq in E. subst a. intros [<- | H]; [right; reflexivity|left; right; exact H].
  - intros [<- | H]; [left; left; reflexivity|].
    destruct (IH H) as [H' | H']; [left; right; exact H'|right; exact H'].
Qed.

Lemma in_map_set {V} (l : list (string * V)) k v e :
  In e (map_set l k v) -> In e l \/ e = (k, v).
Proof.
  unfold map_set. destruct (map_has l k).
  - apply in_map_replace.
  - rewrite in_app_iff. intros [H | [H | []]]; [left; exact H|right; symmetry; exact H].
Qed.

Lemma keys_consistent_set l k v :
  StoreProps.keys_consistent l -> msg_id (message v) = k ->
  StoreProps.keys_consistent (map_set l k v).
Proof.
  unfold StoreProps.keys_consistent. rewrite !Forall_forall. intros Hc Hk e He.
  destruct (in_map_set l k v e He) as [H | ->]; [exact (Hc e H)|exact Hk].
Qed.

Lemma acked_step cfg rnd now p p' :
  StoreProps.step_rel cfg rnd now p p' -> acknowledged p = true -> p' = p.
Proof.
  intros Hs Hack.
  destruct Hs as [[-> _] | [[H _] | [[H _] | [H _]]]]; [reflexivity| | |]; congruence.
Qed.

Lemma effect_not_acked cfg rnd now orig X p e m :
  NoDup (map fst orig) -> StoreProps.keys_consistent orig ->
  map_get orig X = Some p -> acknowledged p = true ->
  StoreProps.effect_ok cfg rnd now orig e -> e = Transmit m -> msg_id m <> X.
Proof.
  intros Hnd Hkc Hget Hack [_ [key [q [Hin [Hq [_ ->]]]]]] Heq Hid.
  injection Heq as <-. simpl in Hid.
  unfold StoreProps.keys_consistent in Hkc. rewrite Forall_forall in Hkc.
  specialize (Hkc _ Hin). simpl in Hkc.
  assert (Hk : key = X) by congruence. rewrite <- Hk in Hget.
  rewrite (StoreProps.nodup_map_get _ _ _ Hnd Hin) in Hget. injection Hget as ->. congruence.
Qed.

Lemma acked_ticks rnd ts :
  forall k s X p,
    NoDup (map fst (pendingMessages s)) ->
    StoreProps.keys_consistent (pendingMessages s) ->
    map_get (pendingMessages s) X = Some p -> acknowledged p = true ->
    let '(s', effs, _) := retryTicks rnd k ts s in
    (forall m, In (Transmit m) effs -> msg_id m <> X)
    /\ map_get (pendingMessages s') X = Some p.
Proof.
  induction ts as [|t ts IH]; intros k s X p Hnd Hkc Hget Hack.
  - simpl. split; [intros m []|exact Hget].
  - cbn [retryTicks]. pose proof (StoreProps.retry_tick_spec t rnd k s Hnd) as Htick.
    destruct (retryPendingMessages t rnd k s) as [[s1 e1] k1].
    destruct Htick as [Hrel [Heff _]].
    destruct (StoreProps.forall2_map_get _ _ _ X p Hrel Hget) as [p1 [Hget1 Hstep]].
    rewrite (acked_step _ _ _ _ _ Hstep Hack) in Hget1.
    assert (Hnd1 : NoDup (map fst (pendingMessages s1)))
      by (rewrite (StoreProps.forall2_keys _ _ _ _ _ Hrel); exact Hnd).
    specialize (IH k1 s1 X p Hnd1 (StoreProps.keys_consistent_step _ _ _ _ _ Hrel Hkc) Hget1 Hack).
    destruct (retryTicks rnd k1 ts s1) as [[s2 e2] k2].
    destruct IH as [Hno2 Hget2]. split; [|exact Hget2].
    intros m Hin. apply in_app_or in Hin as [Hin | Hin]; [|exact (Hno2 m Hin)].
    rewrite Forall_forall in Heff.
    exact (effect_not_acked _ _ _ _ X p _ m Hnd Hkc Hget Hack (Heff _ Hin) eq_refl).
Qed.

(** Once a peer's ACK for a pending message [T] has been handled, no later
    run of the retry loop retransmits [T], whatever the chaos settings: its
    entry stays in the ledger, acknowledged, with its message unchanged. *)
Theorem acked_message_never_retransmitted :
  forall clientId now m s T p rnd k ts,
    senderId m <> clientId ->
    set_has (appliedMessageIds s) (msg_id m) = false ->
    body m = ACKNOWLEDGEMENT T ->
    NoDup (map fst (pendingMessages s)) ->
    StoreProps.keys_consistent (pendingMessages s) ->
    map_get (pendingMessages s) T = Some p ->
    let '(_, s1, _) := handleReliableMessage clientId now m s in
    let '(s2, effs, _) := retryTicks rnd k ts s1 in
    (forall r, In (Transmit r) effs -> msg_id r <> T)
    /\ exists p', map_get (pendingMessages s2) T = Some p'
                  /\ acknowledged p' = true /\ message p' = message p.
Proof.
  intros clientId now m s T p rnd k ts Hsender Happ Hbody Hnd Hkc Hget.
  assert (Hne : String.eqb (senderId m) clientId = false) by (apply String.eqb_neq; exact Hsender).
  unfold handleReliableMessage. rewrite Happ, Hne, Hbody. simpl. rewrite Hget.
  set (s1 := with_metrics _ _).
  assert (Hkey : msg_id (message (with_acknowledged p)) = T).
  { unfold StoreProps.keys_consistent in Hkc. rewrite Forall_forall in Hkc.
    exact (Hkc _ (RelayProps.map_get_in _ _ _ Hget)). }
  pose proof (acked_ticks rnd ts k s1 T (with_acknowledged p)
                (StoreProps.map_set_nodup _ _ _ Hnd) (keys_consistent_set _ _ _ Hkc Hkey)
                (StoreProps.map_get_set_same _ _ _) eq_refl) as H.
  destruct (retryTicks rnd k ts s1) as [[s2 effs] k2].
  destruct H as [Hno Hget2]. split; [exact Hno|].
  exists (with_acknowledged p). split; [exact Hget2|]. split; reflexivity.
Qed.

Lemma set_state_ids nodeId st ns : map node_id (set_state_of nodeId st ns) = map node_id ns.
Proof.
  unfold set_state_of. rewrite map_map. apply map_ext. intros n.
  destruct (String.eqb (node_id n) nodeId); reflexivity.
Qed.

(** The list of node ids is fixed by every action except [setNodes] and an
    applied [STATE_SYNC]: [setNodeState], [updateNodePosition], handling any
    other message, a retry tick and a cleanup leave it as it was. *)
Theorem node_ids_preserved :
  forall clientId now id rnd k nodeId st x y m s,
    (forall ns, body m <> STATE_SYNC ns) ->
    map node_id (nodes (fst (fst (setNodeState clientId now id rnd k nodeId st s)))) = map node_id (nodes s)
    /\ map node_id (nodes (updateNodePosition nodeId x y s)) = map node_id (nodes s)
    /\ map node_id (nodes (snd (fst (handleReliableMessage clientId now m s)))) = map node_id (nodes s)
    /\ nodes (fst (fst (retryPendingMessages now rnd k s))) = nodes s
    /\ nodes (cleanupAcknowledgedMessages now s) = nodes s.
Proof.
  intros clientId now id rnd k nodeId st x y m s Hsync. split; [|split; [|split; [|split]]].
  - unfold setNodeState. destruct (sendReliableMessageInternal _ _ _ _ _ _ _) as [[msg effs] k1].
    apply set_state_ids.
  - unfold updateNodePosition. simpl. rewrite map_map. apply map_ext. intros n.
    destruct (String.eqb (node_id n) nodeId); reflexivity.
  - unfold handleReliableMessage.
    destruct (set_has (appliedMessageIds s) (msg_id m)); [reflexivity|].
    destruct (String.eqb (senderId m) clientId); [reflexivity|].
    destruct (body m) as [nid nst | ns | T | ty] eqn:Hb; simpl.
    + apply set_state_ids.
    + exfalso. exact (Hsync ns eq_refl).
    + destruct (map_get (pendingMessages s) T); reflexivity.
    + reflexivity.
  - unfold retryPendingMessages. destruct (acc_changed _); reflexivity.
  - unfold cleanupAcknowledgedMessages.
    destruct (fold_left _ (pendingMessages s) _) as [np c1].
    destruct (fold_left _ (appliedMessageIds s) _) as [na c2].
    destruct ((0 <? c1)%nat || (0 <? c2)%nat); reflexivity.
Qed.

(** [setNodeState] always records the new message as pending
    (unacknowledged, [lastAttempt = now], [attempts = 0], at most
    [MAX_RETRY_ATTEMPTS] attempts) under its id, sets the node's state and
    counts one sent message, even when the chaos roll drops it; it emits at
    most one transmission and that carries the recorded message. *)
Theorem setNodeState_records_pending :
  forall clientId now id rnd k nodeId st s,
    let msg := mkMsg id (NODE_STATE_CHANGE nodeId st) now clientId 0 MAX_RETRY_ATTEMPTS in
    let '(s', effs, _) := setNodeState clientId now id rnd k nodeId st s in
    map_get (pendingMessages s') id = Some (mkPending msg false now)
    /\ (forall k', k' <> id -> map_get (pendingMessages s') k' = map_get (pendingMessages s) k')
    /\ nodes s' = set_state_of nodeId st (nodes s)
    /\ messagesSent (metrics s') = messagesSent (metrics s) + 1
    /\ (effs = [] \/ effs = [Transmit msg] \/ exists lat, effs = [TransmitAfter lat msg]).
Proof.
  intros clientId now id rnd k nodeId st s. cbv zeta.
  unfold setNodeState, sendReliableMessageInternal.
  destruct (chaos_drops (chaosConfig s) rnd k) as [drop k1].
  assert (Hrest : forall msg0 effs,
    msg0 = mkMsg id (NODE_STATE_CHANGE nodeId st) now clientId 0 MAX_RETRY_ATTEMPTS ->
    (effs = [] \/ effs = [Transmit msg0] \/ exists lat, effs = [TransmitAfter lat msg0]) ->
    map_get (map_set (pendingMessages s) (msg_id msg0) (mkPending msg0 false now)) id
      = Some (mkPending msg0 false now)
    /\ (forall k', k' <> id ->
          map_get (map_set (pendingMessages s) (msg_id msg0) (mkPending msg0 false now)) k'
          = map_get (pendingMessages s) k')
    /\ set_state_of nodeId st (nodes s) = set_state_of nodeId st (nodes s)
    /\ messagesSent (incr_sent (metrics s)) = messagesSent (metrics s) + 1
    /\ (effs = [] \/ effs = [Transmit msg0] \/ exists lat, effs = [TransmitAfter lat msg0])).
  { intros msg0 effs -> Heffs. simpl.
    split; [apply StoreProps.map_get_set_same|]. split; [|split; [reflexivity|split; [reflexivity|exact Heffs]]].
    intros k' Hk. rewrite MapFacts.map_get_set. apply String.eqb_neq in Hk. rewrite Hk. reflexivity. }
  destruct drop; [apply Hrest; [reflexivity|left; reflexivity]|].
  destruct (qltb 0 (minLatency (chaosConfig s)) || qltb 0 (maxLatency (chaosConfig s)));
    apply Hrest; [reflexivity| right; right; eexists; reflexivity | reflexivity | right; left; reflexivity].
Qed.

End StoreActionProps.

Module ClockMoreProps.

Import VectorClock VectorClockOps.

(** [removeClient(clock, id)] drops [id]'s counter (it reads as [0]
    afterwards) and leaves every other counter as it was. *)
Theorem removeClient_counters :
  forall c id,
    counter (removeClient c id) id = 0
    /\ forall id', id' <> id -> counter (removeClient c id) id' = counter c id'.
Proof.
  intros c id. split.
  - apply ClockOpsProps.counter_absent. unfold removeClient. intros Hin.
    apply in_map_iff in Hin as [[k v] [Hk Hin]]. simpl in Hk. subst k.
    apply filter_In in Hin as [_ Hf]. simpl in Hf. rewrite String.eqb_refl in Hf. discriminate.
  - intros id' Hne. unfold counter, removeClient. rewrite MapFacts.map_get_filter; [reflexivity|].
    intros v. simpl. apply negb_true_iff. apply String.eqb_neq. exact Hne.
Qed.

Lemma max_fold (l : list Z) :
  forall acc,
    let r := fold_left (fun acc v => match acc with None => Some v | Some m => Some (Z.max m v) end)
                       l acc in
    (r = None <-> acc = None /\ l = [])
    /\ forall m, r = Some m ->
         (forall a, acc = Some a -> a <= m) /\ (forall v, In v l -> v <= m)
         /\ (acc = Some m \/ In m l).
Proof.
  induction l as [|x l IH]; intros acc; cbv zeta in *; simpl.
  - split; [tauto|]. intros m ->. split; [intros a Ha; injection Ha as ->; lia|].
    split; [intros v []|left; reflexivity].
  - destruct (IH (match acc with None => Some x | Some m => Some (Z.max m x) end)) as [Hn Hs].
    split.
    + rewrite Hn. split; [intros [H _]; destruct acc; discriminate H|intros [_ H]; discriminate H].
    + intros m Hm. destruct (Hs m Hm) as [Ha [Hl Hw]].
      destruct acc as [a|].
      * specialize (Ha (Z.max a x) eq_refl).
        split; [intros a' Ha'; injection Ha' as <-; lia|].
        split; [intros v [<- | Hv]; [lia|exact (Hl v Hv)]|].
        destruct Hw as [Hw | Hw]; [|right; right; exact Hw].
        injection Hw as Hw. destruct (Z.max_spec a x) as [[_ E] | [_ E]]; rewrite E in Hw;
          [right; left; exact Hw|left; rewrite Hw; reflexivity].
      * specialize (Ha x eq_refl).
        split; [intros a' Ha'; discriminate Ha'|].
        split; [intros v [<- | Hv]; [exact Ha|exact (Hl v Hv)]|].
        destruct Hw as [Hw | Hw]; [injection Hw as ->; right; left; reflexivity|right; right; exact Hw].
Qed.

(** [getMaxCounter(clock)] is [-Infinity] ([None]) exactly on the empty
    clock; otherwise it is the largest counter stored: no key's counter
    exceeds it and some entry carries it. *)
Theorem getMaxCounter_spec :
  forall c,
    (getMaxCounter c = None <-> c = [])
    /\ forall m, getMaxCounter c = Some m ->
         (forall id, In id (map fst c) -> counter c id <= m)
         /\ exists id, In (id, m) c.
Proof.
  intros c. unfold getMaxCounter. destruct (max_fold (map snd c) None) as [Hn Hs]. split.
  - rewrite Hn. split; [intros [_ H]; destruct c; [reflexivity|discriminate H]|intros ->; split; reflexivity].
  - intros m Hm. destruct (Hs m Hm) as [_ [Hl [Hw | Hw]]]; [discriminate Hw|]. split.
    + intros id Hin. unfold counter.
      destruct (map_get c id) as [v|] eqn:Hg; [|apply MapFacts.map_get_none_notin in Hg; contradiction].
      apply Hl. apply in_map_iff. exists (id, v). split; [reflexivity|exact (RelayProps.map_get_in _ _ _ Hg)].
    + apply in_map_iff in Hw as [[id v] [Hv Hin]]. simpl in Hv. subst v. exists id. exact Hin.
Qed.

End ClockMoreProps.

Module StoreActionExamples.

Import NexusStore StoreActions.

Definition acked_store : Store := StoreExamples.store_with "T" (StoreExamples.pending_T false).

Lemma listener_acks_duplicate_twice_witness :
  senderId StoreExamples.peer_change <> "client-self"%string
  /\ set_has (appliedMessageIds initialStore) (msg_id StoreExamples.peer_change) = false
  /\ (let '(s1, e1) := onChannelMessage "client-self" 0 StoreExamples.peer_change initialStore in
      e1 = [SendAck "Y" "client-self"]
      /\ onChannelMessage "client-self" 5 StoreExamples.peer_change s1
         = (s1, [SendAck "Y" "client-self"; SendAck "Y" "client-self"])).
Proof.
  split; [simpl; discriminate|]. split; [reflexivity|].
  apply (StoreActionProps.listener_acks_duplicate_twice "client-self" 0 5
           StoreExamples.peer_change initialStore);
    [simpl; discriminate | reflexivity | left; do 2 eexists; reflexivity].
Defined.

Lemma listener_silent_on_own_echo_and_acks_witness :
  set_has (appliedMessageIds initialStore) (msg_id StoreExamples.own_change) = false
  /\ senderId StoreExamples.own_change = "client-self"%string
  /\ snd (onChannelMessage "client-self" 0 StoreExamples.own_change initialStore) = [].
Proof.
  split; [reflexivity|]. split; [reflexivity|].
  apply (StoreActionProps.listener_silent_on_own_echo_and_acks "client-self" 0
           StoreExamples.own_change initialStore); [reflexivity | left; reflexivity].
Defined.

Lemma acked_message_never_retransmitted_witness :
  map_get (pendingMessages acked_store) "T" = Some (StoreExamples.pending_T false)
  /\ (let '(_, s1, _) :=
        handleReliableMessage "client-self" 10 (StoreExamples.peer_ack_of "T") acked_store in
      let '(s2, effs, _) := retryTicks StoreExamples.half 0 [300; 600; 900; 1200; 1500] s1 in
      (forall r, In (Transmit r) effs -> msg_id r <> "T"%string)
      /\ exists p', map_get (pendingMessages s2) "T" = Some p'
                    /\ acknowledged p' = true
                    /\ message p' = message (StoreExamples.pending_T false)).
Proof.
  split; [reflexivity|].
  apply (StoreActionProps.acked_message_never_retransmitted "client-self" 10
           (StoreExamples.peer_ack_of "T") acked_store "T" (StoreExamples.pending_T false)
           StoreExamples.half 0 [300; 600; 900; 1200; 1500]);
    [simpl; discriminate | reflexivity | reflexivity
    | constructor; [intros []|constructor] | repeat constructor | reflexivity].
Defined.

Lemma node_ids_preserved_witness :
  (forall ns, body StoreExamples.peer_change <> STATE_SYNC ns)
  /\ map node_id (nodes (fst (fst (setNodeState "client-self" 0 "X" StoreExamples.half 0
                                     "robot-beta" warning initialStore))))
     = map node_id (nodes initialStore)
  /\ map node_id (nodes (StoreActions.updateNodePosition "robot-beta" 1 2 initialStore))
     = map node_id (nodes initialStore)
  /\ map node_id (nodes (snd (fst (handleReliableMessage "client-self" 0
                                     StoreExamples.peer_change initialStore))))
     = map node_id (nodes initialStore)
  /\ nodes (fst (fst (retryPendingMessages 0 StoreExamples.half 0 initialStore))) = nodes initialStore
  /\ nodes (cleanupAcknowledgedMessages 0 initialStore) = nodes initialStore.
Proof.
  assert (H : forall ns, body StoreExamples.peer_change <> STATE_SYNC ns) by (intros ns; discriminate).
  split; [exact H|].
  apply (StoreActionProps.node_ids_preserved "client-self" 0 "X" StoreExamples.half 0
           "robot-beta" warning 1 2 StoreExamples.peer_change initialStore H).
Defined.

End StoreActionExamples.

Module RelayActionExamples.

Import MessageStore Server RelayActions.

Definition q1 : QueuedMessage := mkQ "m1" "NODE_STATE_CHANGE" 0 "client-1" 0 5 false.

Definition old_and_new : MStore :=
  mkMS [] [("d1"%string, mkQ "d1" "NODE_STATE_CHANGE" 0 "client-1" 0 5 true);
           ("d2"%string, mkQ "d2" "NODE_STATE_CHANGE" 70000 "client-1" 0 5 true)].

Definition good_payload : JsVal :=
  JObj [("id", JStr "123e4567-e89b-42d3-a456-426614174000"); ("type", JStr "NODE_STATE_CHANGE");
        ("senderId", JStr "client-1"); ("timestamp", JNum 0); ("attempts", JNum 0);
        ("maxAttempts", JNum 5)]%string.

Lemma acknowledge_pending_message_witness :
  map_get (pendingMessages RelayExamples.relay_store) "m1" = Some q1
  /\ (let '(ok, s', evs) := acknowledge "m1" RelayExamples.relay_store in
      ok = true /\ evs = [EvAcknowledged "m1"]
      /\ map_get (pendingMessages s') "m1" = None
      /\ map_get (deliveredMessages s') "m1" = Some (with_ack q1)
      /\ (forall k, k <> "m1"%string ->
            map_get (pendingMessages s') k = map_get (pendingMessages RelayExamples.relay_store) k)
      /\ S (length (pendingMessages s')) = length (pendingMessages RelayExamples.relay_store)
      /\ (forall now t,
            (forall m', In m' (fst (getPendingForRetry now t s')) -> q_id m' <> "m1"%string)
            /\ ~ In (EvFailed "m1" "Max attempts reached") (snd (getPendingForRetry now t s')))
      /\ acknowledge "m1" s' = (true, s', [])).
Proof.
  split; [reflexivity|].
  apply (RelayActionProps.acknowledge_pending_message "m1" q1 RelayExamples.relay_store);
    [constructor; [intros []|constructor] | repeat constructor | reflexivity].
Defined.

Lemma cleanup_removes_old_delivered_witness :
  NoDup (map fst (deliveredMessages old_and_new))
  /\ (let '(removed, s') := cleanup 100000 MAX_AGE_MS old_and_new in
      pendingMessages s' = pendingMessages old_and_new
      /\ deliveredMessages s'
         = filter (fun e => 100000 - q_timestamp (snd e) <=? MAX_AGE_MS) (deliveredMessages old_and_new)
      /\ removed = Z.of_nat (length (filter (fun e => MAX_AGE_MS <? 100000 - q_timestamp (snd e))
                                            (deliveredMessages old_and_new)))
      /\ forall id m, map_get (deliveredMessages old_and_new) id = Some m ->
           MAX_AGE_MS < 100000 - q_timestamp m -> map_get (pendingMessages old_and_new) id = None ->
           acknowledge id s' = (false, s', [])).
Proof.
  assert (Hnd : NoDup (map fst (deliveredMessages old_and_new))).
  { simpl. constructor; [simpl; intros [H | []]; discriminate H|].
    constructor; [intros []|constructor]. }
  split; [exact Hnd|].
  apply (RelayActionProps.cleanup_removes_old_delivered 100000 MAX_AGE_MS old_and_new Hnd).
Defined.

Lemma accepted_message_stored_and_broadcast_witness :
  fst (checkRateLimit "client-1" 0 (rateLimitTracker ServerExamples.empty_relay)) = true
  /\ validateMessage good_payload = true
  /\ (let m := toQueuedMessage good_payload in
      let '(r', out) := onMessageSend "client-1" 0 good_payload ServerExamples.empty_relay in
      out = [EmitReceiveToOthers m; EmitAckToSender (q_id m)]
      /\ map_get (pendingMessages (store r')) (q_id m) = Some m
      /\ (forall k, k <> q_id m ->
            map_get (pendingMessages (store r')) k
            = map_get (pendingMessages (store ServerExamples.empty_relay)) k)
      /\ deliveredMessages (store r') = deliveredMessages (store ServerExamples.empty_relay)
      /\ rateLimitTracker r'
         = snd (checkRateLimit "client-1" 0 (rateLimitTracker ServerExamples.empty_relay))).
Proof.
  assert (H1 : fst (checkRateLimit "client-1" 0 (rateLimitTracker ServerExamples.empty_relay)) = true)
    by reflexivity.
  assert (H2 : validateMessage good_payload = true) by (vm_compute; reflexivity).
  split; [exact H1|]. split; [exact H2|].
  apply (RelayActionProps.accepted_message_stored_and_broadcast "client-1" 0 good_payload
           ServerExamples.empty_relay H1 H2).
Defined.

Lemma rate_limit_window_witness :
  Forall (fun t => t <= 0 + 1000) (repeat 1000 150)
  /\ fst (rateLimitRun "client-1" (0 :: repeat 1000 150) []) = Nat.min 151 100
  /\ forall c, c <> "client-1"%string ->
       map_get (snd (rateLimitRun "client-1" (0 :: repeat 1000 150) [])) c
       = map_get [] c.
Proof.
  assert (Hf : Forall (fun t => t <= 0 + 1000) (repeat 1000 150)).
  { apply Forall_forall. intros t Ht. apply repeat_spec in Ht. lia. }
  split; [exact Hf|].
  apply (RelayActionProps.rate_limit_window "client-1" 0 (repeat 1000 150) []);
    [intros n R H; discriminate H | exact Hf].
Defined.

End RelayActionExamples.
